(** * SportsArbitrage-Bot: the arbitrage calculator and the bot's run loop

    A shallow embedding of [src/bot/fetch.py].

    - Odds are Python floats, that is IEEE 754 binary64 numbers: they are
      modelled by Rocq's primitive floats, whose operations are the
      hardware's.  Python's true division differs from the IEEE one at
      a zero divisor, where it raises [ZeroDivisionError].  A price that
      the JSON payload gives without a fraction is an [int]; [1.0 / n]
      converts it to the nearest double first, so it divides as that
      double does, as long as there is one: beyond the range of the
      doubles the conversion raises [OverflowError].
    - The model is typed by what the Odds API documents: the key of a
      sport, the name of a team and the key of a bookmaker are strings,
      a price is a number in the range of the doubles.  A payload that
      has another JSON value there (a list or an object as a name, which
      makes the key of [event_odds] unhashable; [null] or an integer
      beyond the doubles as a price, on which the division raises
      [TypeError] or [OverflowError]) is outside the model, and no
      theorem speaks of it.
    - A Python [dict] keeps its keys in insertion order: [event_odds] is
      an association list, a new key going to the end.
    - Exceptions are values of an error monad; the methods of [Fetch]
      pass the object's state explicitly. *)

From Stdlib Require Import List String ZArith Lia Bool Arith PeanoNat FinFun.
From Stdlib Require Import Floats DecimalString.
Import ListNotations.

Set Warnings "-inexact-float".

(** ** Exceptions

    What the calculator can raise on records whose names are strings and
    whose prices are floats: the division by zero, and the lookup of a
    key that a dict does not have. *)

Inductive exn : Type :=
| ZeroDivisionError
| KeyError.

Inductive result (A : Type) : Type :=
| Ok (a : A)
| Raise (e : exn).

Arguments Ok {A} a.
Arguments Raise {A} e.

Definition bind {A B : Type} (r : result A) (k : A -> result B) : result B :=
  match r with
  | Ok a => k a
  | Raise e => Raise e
  end.

Declare Scope py_scope.
Delimit Scope py_scope with py.
Notation "x <- c ;; k" := (bind c (fun x => k))
  (at level 61, c at next level, right associativity) : py_scope.
Local Open Scope py_scope.

(** [for x in xs: body], the loop state [s] passed along; an exception
    raised by the body leaves the loop. *)
Fixpoint for_each {A S : Type} (xs : list A) (body : A -> S -> result S) (s : S)
  : result S :=
  match xs with
  | [] => Ok s
  | x :: xs' => s' <- body x s ;; for_each xs' body s'
  end.

(** [enumerate(xs)] *)
Definition enumerate {A : Type} (xs : list A) : list (nat * A) :=
  combine (seq 0 (List.length xs)) xs.

(** ** Floats *)

(** [x / y] on Python floats; both operands are floats. *)
Definition truediv (x y : float) : result float :=
  if (y =? 0)%float then Raise ZeroDivisionError else Ok (x / y)%float.

(** ** The data model *)

(** One entry of [odds_data]: the dict that [fetch_odds] appends. *)
Record OddsRecord : Type := mkOdds {
  sport : string;
  home_team : string;
  away_team : string;
  bookmaker : string;
  home_odds : float;
  away_odds : float
}.

(** The key of [event_odds]. *)
Definition EventKey : Type := (string * string * string)%type.

Definition key_of (odd : OddsRecord) : EventKey :=
  (sport odd, home_team odd, away_team odd).

(** Equality of two keys: tuples of [str] compare component by component. *)
Definition key_eqb (k1 k2 : EventKey) : bool :=
  let '(s1, h1, a1) := k1 in
  let '(s2, h2, a2) := k2 in
  (s1 =? s2)%string && (h1 =? h2)%string && (a1 =? a2)%string.

(** [arb_dict] *)
Module Arb.
Record t : Type := mk {
  sport : string;
  home_team : string;
  away_team : string;
  home_bookmaker : string;
  away_bookmaker : string;
  home_odds : float;
  away_odds : float;
  profit_percent : float
}.
End Arb.

(** ** An insertion-ordered dict keyed by [EventKey] *)

Section Dict.
Variable V : Type.

Definition dict : Type := list (EventKey * V).

(** [key in d] *)
Fixpoint contains (key : EventKey) (d : dict) : bool :=
  match d with
  | [] => false
  | (k, _) :: d' => key_eqb key k || contains key d'
  end.

(** [d[key]] *)
Fixpoint getitem (key : EventKey) (d : dict) : result V :=
  match d with
  | [] => Raise KeyError
  | (k, v) :: d' => if key_eqb key k then Ok v else getitem key d'
  end.

(** [d[key] = v]: an existing key keeps its place, a new one goes last. *)
Fixpoint setitem (key : EventKey) (v : V) (d : dict) : dict :=
  match d with
  | [] => [(key, v)]
  | (k, w) :: d' =>
      if key_eqb key k then (k, v) :: d' else (k, w) :: setitem key v d'
  end.
End Dict.

Arguments contains {V} key d.
Arguments getitem {V} key d.
Arguments setitem {V} key v d.

(** ** [ArbitrageCalculator.compute_arbitrage] *)

(** The body of the grouping loop (lines 31-34).  The list stored under
    [key] is mutated in place by [append]: in the model the dict gets the
    extended list at the same key. *)
Definition group_step (odd : OddsRecord) (event_odds : dict (list OddsRecord))
  : result (dict (list OddsRecord)) :=
  let key := (sport odd, home_team odd, away_team odd) in
  let event_odds :=
    if negb (contains key event_odds) then setitem key [] event_odds
    else event_odds in
  odds_group <- getitem key event_odds ;;
  Ok (setitem key (odds_group ++ [odd]) event_odds).

(** Lines 29-34: [event_odds] after the grouping loop. *)
Definition event_odds (odds_list : list OddsRecord)
  : result (dict (list OddsRecord)) :=
  for_each odds_list group_step [].

(** The body of the innermost loop (lines 43-59). *)
Definition pair_step (sport home away : string) (odd1 odd2 : OddsRecord)
  (arbitrage_opportunities : list Arb.t) : result (list Arb.t) :=
  let home_odds := home_odds odd1 in
  let away_odds := away_odds odd2 in
  x <- truediv 1 home_odds ;;
  y <- truediv 1 away_odds ;;
  let arb_sum := (x + y)%float in
  if (arb_sum <? 1)%float then
    q <- truediv 1 arb_sum ;;
    let profit_percent := ((q - 1) * 100)%float in
    let arb_dict :=
      {| Arb.sport := sport;
         Arb.home_team := home;
         Arb.away_team := away;
         Arb.home_bookmaker := bookmaker odd1;
         Arb.away_bookmaker := bookmaker odd2;
         Arb.home_odds := home_odds;
         Arb.away_odds := away_odds;
         Arb.profit_percent := profit_percent |} in
    Ok (arbitrage_opportunities ++ [arb_dict])
  else Ok arbitrage_opportunities.

(** Lines 39-59: the two loops over one [odds_group]. *)
Definition group_loop (sport home away : string) (odds_group : list OddsRecord)
  (arbitrage_opportunities : list Arb.t) : result (list Arb.t) :=
  for_each (enumerate odds_group)
    (fun '(i, odd1) =>
       for_each (skipn (i + 1) odds_group) (pair_step sport home away odd1))
    arbitrage_opportunities.

(** Lines 36-59: [arbitrage_opportunities] after the loop over the events. *)
Definition arbitrage_opportunities (event_odds : dict (list OddsRecord))
  : result (list Arb.t) :=
  for_each event_odds
    (fun '((sport, home, away), odds_group) =>
       group_loop sport home away odds_group)
    [].

Definition compute_arbitrage (odds_list : list OddsRecord)
  : result (option Arb.t) :=
  match odds_list with
  | [] => Ok None
  | _ =>
      event_odds <- event_odds odds_list ;;
      arbitrage_opportunities <- arbitrage_opportunities event_odds ;;
      match arbitrage_opportunities with
      | first :: _ => Ok (Some first)
      | [] => Ok None
      end
  end.

(** ** [Fetch] *)

(** The state of the bot: the class variable [_cached_sports] and the
    attribute [odds_data] of the instance. *)
Record Fetch : Type := mkFetch {
  _cached_sports : option (list string);
  odds_data : list OddsRecord
}.

(** What a run does to the outside: the lines it prints and the file it
    writes ([DataFrame.to_csv]). *)
Inductive event : Type :=
| Printed (line : string)
| ToCsv (path : string) (rows : list Arb.t).

Section Scan.
(** The calculator object of line 167, as its one method. *)
Variable arb_calc : list OddsRecord -> result (option Arb.t).

(** Lines 171-173, the body of the loop.  [if arb:] holds for a dict
    with keys and fails for [None]. *)
Definition scan_step (odd : OddsRecord) (arb_opportunities : list Arb.t)
  : result (list Arb.t) :=
  arb <- arb_calc [odd] ;;
  match arb with
  | Some arb => Ok (arb_opportunities ++ [arb])
  | None => Ok arb_opportunities
  end.

(** Lines 168-173: [arb_opportunities] after the loop. *)
Definition arb_opportunities (odds_data : list OddsRecord)
  : result (list Arb.t) :=
  for_each (firstn 1000 odds_data) scan_step [].
End Scan.

Section Run.
(** The two methods that talk to the Odds API are left open: each maps
    the state to a new one and gives the lines it printed (the error
    reports); [fetch_sports] returns the sport keys as well.  They catch
    every [Exception], so none leaves them. *)
Variable fetch_sports : Fetch -> list string * Fetch * list string.
Variable fetch_odds : string -> Fetch -> Fetch * list string.

(** Lines 160-164; [time.sleep] has no effect on the state. *)
Definition fetch_all (sports : list string) (self : Fetch) (out : list event)
  : Fetch * list event :=
  fold_left
    (fun '(self, out) sport =>
       let out :=
         out ++ [Printed ("Fetching odds for sport: " ++ sport ++ "...")] in
       let '(self, lines) := fetch_odds sport self in
       (self, out ++ map Printed lines))
    sports (self, out).

(** [run] gives the final state, what was printed and written, and
    whether it returned or raised. *)
Definition run (self : Fetch) : Fetch * list event * result unit :=
  let out := [Printed "Arbitrage bot is starting..."] in
  let '(sports, self, lines) := fetch_sports self in
  let out := out ++ map Printed lines in
  match sports with
  | [] => (self, out ++ [Printed "No sports data available. Exiting."], Ok tt)
  | _ =>
      let '(self, out) := fetch_all sports self out in
      let out := out ++ [Printed "Computing arbitrage opportunities..."] in
      let arb_calc := compute_arbitrage in
      match arb_opportunities arb_calc (odds_data self) with
      | Raise e => (self, out, Raise e)
      | Ok [] =>
          (self, out ++ [Printed "No arbitrage opportunity found."], Ok tt)
      | Ok rows =>
          (self,
           out ++ [ToCsv "arbitrage_opportunities.csv" rows;
                   Printed "Arbitrage opportunities saved into arbitrage_opportunities.csv."],
           Ok tt)
      end
  end.
End Run.

(** ** The words of the specification

    The definitions below follow the specification, not the code; the
    theorems compare the two. *)

(** A price is a positive decimal: greater than zero, and finite. *)
Definition positive_odds (x : float) : bool :=
  ((0 <? x) && (x <? infinity))%float.

(** The invariant of an OddsRecord. *)
Definition valid_record (odd : OddsRecord) : bool :=
  positive_odds (home_odds odd) && positive_odds (away_odds odd).

(** [arb_sum = 1/home_odds + 1/away_odds], in IEEE arithmetic. *)
Definition arb_sum (h a : float) : float := (1 / h + 1 / a)%float.

(** [profit_percent = (1/arb_sum - 1) * 100] *)
Definition profit_percent (h a : float) : float :=
  ((1 / arb_sum h a - 1) * 100)%float.

(** A pair qualifies when its [arb_sum] is strictly below 1. *)
Definition qualifies (odd1 odd2 : OddsRecord) : bool :=
  (arb_sum (home_odds odd1) (away_odds odd2) <? 1)%float.

(** The opportunity of a pair: the home leg of [odd1], the away leg of
    [odd2]. *)
Definition opportunity (sport home away : string) (odd1 odd2 : OddsRecord)
  : Arb.t :=
  {| Arb.sport := sport;
     Arb.home_team := home;
     Arb.away_team := away;
     Arb.home_bookmaker := bookmaker odd1;
     Arb.away_bookmaker := bookmaker odd2;
     Arb.home_odds := home_odds odd1;
     Arb.away_odds := away_odds odd2;
     Arb.profit_percent := profit_percent (home_odds odd1) (away_odds odd2) |}.

(** Every [(i, j)] with [i < j < n], by [i] and then by [j]. *)
Definition index_pairs (n : nat) : list (nat * nat) :=
  flat_map (fun i => map (pair i) (seq (S i) (n - S i))) (seq 0 n).

(** The records at a pair of indices. *)
Definition records_at (group : list OddsRecord) (ij : nat * nat)
  : list (OddsRecord * OddsRecord) :=
  match nth_error group (fst ij), nth_error group (snd ij) with
  | Some odd1, Some odd2 => [(odd1, odd2)]
  | _, _ => []
  end.

(** The pairs of a group in pair-enumeration order. *)
Definition candidates (group : list OddsRecord)
  : list (OddsRecord * OddsRecord) :=
  flat_map (records_at group) (index_pairs (List.length group)).

(** One opportunity for every qualifying pair, in enumeration order. *)
Definition qualifying_opportunities (sport home away : string)
  (group : list OddsRecord) : list Arb.t :=
  map (fun p => opportunity sport home away (fst p) (snd p))
    (filter (fun p => qualifies (fst p) (snd p)) (candidates group)).

(** The opportunities of one entry of [event_odds]. *)
Definition event_opportunities (entry : EventKey * list OddsRecord)
  : list Arb.t :=
  let '((sport, home, away), group) := entry in
  qualifying_opportunities sport home away group.

(** The opportunities a caller gets out of what the calculator returns. *)
Definition returned (r : result (option Arb.t)) : list Arb.t :=
  match r with
  | Ok (Some arb) => [arb]
  | _ => []
  end.

(** The test a record passes to be in the group of [key]. *)
Definition has_key (key : EventKey) (odd : OddsRecord) : bool :=
  key_eqb (key_of odd) key.

(** The keys of a list of records that are not in [seen], each once, in
    first-seen order. *)
Fixpoint first_seen (seen : list EventKey) (odds_list : list OddsRecord)
  : list EventKey :=
  match odds_list with
  | [] => []
  | odd :: rest =>
      if existsb (key_eqb (key_of odd)) seen then first_seen seen rest
      else key_of odd :: first_seen (seen ++ [key_of odd]) rest
  end.

(** Under each key, the records of that key as the input has them. *)
Definition groups_of (odds_list : list OddsRecord) (keys : list EventKey)
  : dict (list OddsRecord) :=
  map (fun key => (key, filter (has_key key) odds_list)) keys.

(** The grouping of the specification. *)
Definition grouped (odds_list : list OddsRecord) : dict (list OddsRecord) :=
  groups_of odds_list (first_seen [] odds_list).

(** ** Auxiliary definitions of the proofs *)

(** The pairs of the two loops, by recursion on the group. *)
Fixpoint pairs (group : list OddsRecord) : list (OddsRecord * OddsRecord) :=
  match group with
  | [] => []
  | odd1 :: rest => map (pair odd1) rest ++ pairs rest
  end.

(** What [group_step] does to the dict, in one pass. *)
Fixpoint add_to_group (odd : OddsRecord) (d : dict (list OddsRecord))
  : dict (list OddsRecord) :=
  match d with
  | [] => [(key_of odd, [odd])]
  | (k, g) :: d' =>
      if key_eqb (key_of odd) k then (k, g ++ [odd]) :: d'
      else (k, g) :: add_to_group odd d'
  end.

(** A float that is neither a zero, nor negative, nor a NaN. *)
Definition SFpositive (x : spec_float) : Prop :=
  match x with
  | S754_finite false _ _ | S754_infinity false => True
  | _ => False
  end.

Definition is_print (ev : event) : Prop :=
  match ev with
  | Printed _ => True
  | ToCsv _ _ => False
  end.

(** ** Records of the examples *)

Definition bookmaker_A : OddsRecord :=
  mkOdds "nba" "Lakers" "Celtics" "A" 2.10 2.00.

Definition bookmaker_B : OddsRecord :=
  mkOdds "nba" "Lakers" "Celtics" "B" 2.00 2.50.

Definition bookmaker_C : OddsRecord :=
  mkOdds "nba" "Lakers" "Celtics" "C" 2.20 2.60.

(** A record whose home price was missing: [fetch_odds] puts [0.0]. *)
Definition no_home_price : OddsRecord :=
  mkOdds "nba" "Lakers" "Celtics" "Z" 0 2.00.

Definition evens (name : string) : OddsRecord :=
  mkOdds "nba" "Lakers" "Celtics" name 1.50 1.50.

(** Two bookmakers on another event. *)
Definition heat_A : OddsRecord :=
  mkOdds "nba" "Heat" "Bulls" "A" 3.00 1.40.

Definition heat_B : OddsRecord :=
  mkOdds "nba" "Heat" "Bulls" "B" 1.45 3.10.

(** ** The Odds API

    A reply of the API is a JSON document.  It is taken to have the
    shape that the two fetchers read, every field possibly absent: a list
    of sports with a ["key"], and a list of games with ["home_team"],
    ["away_team"] and ["bookmakers"], each bookmaker with a ["key"] and
    ["markets"], each market with a ["key"] and ["outcomes"], each
    outcome with a ["name"] and a ["price"].  [None] is an absent field.
    A field that is there has the type that the API documents: keys and
    names are strings, a price is a float. *)

Record SportEntry : Type := mkSport {
  sport_key : option string
}.

Record Outcome : Type := mkOutcome {
  outcome_name : option string;
  outcome_price : option float
}.

Record Market : Type := mkMarket {
  market_key : option string;
  market_outcomes : option (list Outcome)
}.

Record Bookmaker : Type := mkBookmaker {
  bookmaker_key : option string;
  bookmaker_markets : option (list Market)
}.

Record Game : Type := mkGame {
  game_home_team : option string;
  game_away_team : option string;
  game_bookmakers : option (list Bookmaker)
}.

(** What [requests.get] and [response.json] raise, with [str(e)]: a
    [requests.exceptions.RequestException], or any other [Exception]. *)
Inductive raised : Type :=
| RequestException (msg : string)
| OtherException (msg : string).

(** A response: its [status_code], and what [response.json()] gives. *)
Record response (A : Type) : Type := mkResponse {
  status_code : Z;
  json : raised + A
}.

Arguments mkResponse {A} status_code json.
Arguments status_code {A} r.
Arguments json {A} r.

(** [d.get(key, default)] *)
Definition get {A : Type} (field : option A) (default : A) : A :=
  match field with
  | Some v => v
  | None => default
  end.

(** [d.get(key) == s]: an absent field gives [None], which equals no
    string. *)
Definition get_is (field : option string) (s : string) : bool :=
  match field with
  | Some v => (v =? s)%string
  | None => false
  end.

(** An [int] in an f-string. *)
Definition str_int (n : Z) : string := NilZero.string_of_int (Z.to_int n).

(** A loop inside a [try]: the state that the loop reached, and what its
    body raised if it did not come to the end. *)
Fixpoint try_each {A S E : Type} (xs : list A) (body : A -> S -> S * option E)
  (s : S) : S * option E :=
  match xs with
  | [] => (s, None)
  | x :: xs' =>
      match body x s with
      | (s', None) => try_each xs' body s'
      | (s', Some e) => (s', Some e)
      end
  end.

(** The two local variables [home_odds] and [away_odds] of [fetch_odds]:
    [None] before the first assignment. *)
Definition prices : Type := (option float * option float)%type.

Section Api.
(** The network: the replies to the request for the sports and to the
    request for the odds, by URL.  [str(e)] of an [UnboundLocalError]
    depends on the interpreter: it is left open, by variable name. *)
Variable requests_get_sports : string -> raised + response (list SportEntry).
Variable requests_get_odds : string -> raised + response (list Game).
Variable unbound_message : string -> string.

(** [self.api_key], which the record [Fetch] does not hold. *)
Variable api_key : string.

Definition sports_url : string := "https://api.the-odds-api.com/v4/sports".

(** [self.odds_url.format(sport=sport, apiKey=self.api_key)] *)
Definition odds_url (sport : string) : string :=
  "https://api.the-odds-api.com/v4/sports/" ++ sport ++ "/odds/?apiKey="
  ++ api_key ++ "&regions=us,us2".

(** Lines 98-99, the body of the loop: [sport["key"]] raises [KeyError]
    on an entry without that key, and [str(KeyError('key'))] is the key
    in quotes. *)
Definition sports_step (entry : SportEntry) (sports : list string)
  : list string * option string :=
  match sport_key entry with
  | Some key => (sports ++ [key], None)
  | None => (sports, Some "'key'"%string)
  end.

Definition request_error_sports (e : raised) : string :=
  match e with
  | RequestException msg => "Request error fetching sports: " ++ msg ++ "."
  | OtherException msg => "Unexpected error fetching sports: " ++ msg ++ "."
  end.

Definition status_error_sports (status_code : Z) : string :=
  "Error fetching sports: status code " ++ str_int status_code ++ ".".

(** [fetch_sports] gives the list it returns, the state, and the lines
    it printed. *)
Definition fetch_sports (self : Fetch) : list string * Fetch * list string :=
  match _cached_sports self with
  | Some sports => (sports, self, [])
  | None =>
      match requests_get_sports (sports_url ++ "?api_key=" ++ api_key) with
      | inl e => ([], self, [request_error_sports e])
      | inr response =>
          if (status_code response =? 200)%Z then
            match json response with
            | inl e => ([], self, [request_error_sports e])
            | inr entries =>
                match try_each entries sports_step [] with
                | (sports, None) =>
                    (sports, mkFetch (Some sports) (odds_data self), [])
                | (sports, Some msg) =>
                    (sports, self,
                     [request_error_sports (OtherException msg)])
                end
            end
          else ([], self, [status_error_sports (status_code response)])
      end
  end.

(** Lines 128-131, the body of the loop over the outcomes. *)
Definition outcome_step (home_team away_team : string) (outcome : Outcome)
  (vars : prices) : prices :=
  if get_is (outcome_name outcome) home_team then
    (Some (get (outcome_price outcome) 0%float), snd vars)
  else if get_is (outcome_name outcome) away_team then
    (fst vars, Some (get (outcome_price outcome) 0%float))
  else vars.

(** Lines 126-140, the body of the loop over the markets.  The dict of
    line 133 reads [home_odds] and then [away_odds]: the first that was
    never assigned raises [UnboundLocalError]. *)
Definition market_step (sport home_team away_team bookmaker : string)
  (market : Market) (state : list OddsRecord * prices)
  : (list OddsRecord * prices) * option string :=
  if get_is (market_key market) "h2h" then
    let vars :=
      fold_left (fun vars outcome => outcome_step home_team away_team outcome vars)
        (get (market_outcomes market) []) (snd state) in
    match vars with
    | (Some home_odds, Some away_odds) =>
        ((fst state
          ++ [mkOdds sport home_team away_team bookmaker home_odds away_odds],
          vars), None)
    | (None, _) => ((fst state, vars), Some "home_odds"%string)
    | (Some _, None) => ((fst state, vars), Some "away_odds"%string)
    end
  else (state, None).

(** Lines 123-140, the body of the loop over the bookmakers. *)
Definition bookmaker_step (sport home_team away_team : string)
  (book : Bookmaker) (state : list OddsRecord * prices)
  : (list OddsRecord * prices) * option string :=
  let bookmaker := get (bookmaker_key book) "N/A"%string in
  try_each (get (bookmaker_markets book) [])
    (market_step sport home_team away_team bookmaker) state.

(** Lines 120-140, the body of the loop over the games. *)
Definition game_step (sport : string) (game : Game)
  (state : list OddsRecord * prices)
  : (list OddsRecord * prices) * option string :=
  let home_team := get (game_home_team game) "N/A"%string in
  let away_team := get (game_away_team game) "N/A"%string in
  try_each (get (game_bookmakers game) [])
    (bookmaker_step sport home_team away_team) state.

Definition request_error_odds (sport : string) (e : raised) : string :=
  match e with
  | RequestException msg =>
      "Request error fetching odds for sport " ++ sport ++ ": " ++ msg ++ "."
  | OtherException msg =>
      "Unexpected error fetching odds for sport " ++ sport ++ ": " ++ msg ++ "."
  end.

Definition status_error_odds (sport : string) (status_code : Z) : string :=
  "Error fetching odds for sport " ++ sport ++ ": status code "
  ++ str_int status_code ++ ".".

(** [fetch_odds] gives the state and the lines it printed. *)
Definition fetch_odds (sport : string) (self : Fetch) : Fetch * list string :=
  match requests_get_odds (odds_url sport) with
  | inl e => (self, [request_error_odds sport e])
  | inr response =>
      if negb (status_code response =? 200)%Z then
        (self, [status_error_odds sport (status_code response)])
      else
        match json response with
        | inl e => (self, [request_error_odds sport e])
        | inr data =>
            match try_each data (game_step sport)
                    (odds_data self, (None, None)) with
            | ((odds_data, _), None) =>
                (mkFetch (_cached_sports self) odds_data, [])
            | ((odds_data, _), Some variable) =>
                (mkFetch (_cached_sports self) odds_data,
                 [request_error_odds sport
                    (OtherException (unbound_message variable))])
            end
        end
  end.
End Api.

(** ** The bot on a network *)

Section Bot.
Variable requests_get_sports : string -> raised + response (list SportEntry).
Variable requests_get_odds : string -> raised + response (list Game).
Variable unbound_message : string -> string.

(** [run] with the two fetchers of the class. *)
Definition bot_run (api_key : string) (self : Fetch)
  : Fetch * list event * result unit :=
  run (fetch_sports requests_get_sports api_key)
    (fetch_odds requests_get_odds unbound_message api_key) self.



End Bot.

(** ** The h2h markets of a payload

    These definitions describe a payload of odds; the theorems on
    [fetch_odds] are stated with them. *)

(** An h2h market, with what [fetch_odds] knows when it reads it: the
    teams of the game, the key of the bookmaker, and the outcomes. *)
Record Quote : Type := mkQuote {
  quote_home_team : string;
  quote_away_team : string;
  quote_bookmaker : string;
  quote_outcomes : list Outcome
}.

Definition market_quotes (home_team away_team bookmaker : string)
  (market : Market) : list Quote :=
  if get_is (market_key market) "h2h"
  then [mkQuote home_team away_team bookmaker (get (market_outcomes market) [])]
  else [].

Definition bookmaker_quotes (home_team away_team : string) (book : Bookmaker)
  : list Quote :=
  flat_map
    (market_quotes home_team away_team (get (bookmaker_key book) "N/A"%string))
    (get (bookmaker_markets book) []).

Definition game_quotes (game : Game) : list Quote :=
  flat_map
    (bookmaker_quotes (get (game_home_team game) "N/A"%string)
       (get (game_away_team game) "N/A"%string))
    (get (game_bookmakers game) []).

(** The h2h markets of a payload, in the order of the payload. *)
Definition quotes (data : list Game) : list Quote := flat_map game_quotes data.

Definition last_error {A : Type} (l : list A) : option A := hd_error (rev l).

(** An outcome counts for the home team when it has its name, and for
    the away team when it has that name and not the home team's. *)
Definition for_home (q : Quote) (outcome : Outcome) : bool :=
  get_is (outcome_name outcome) (quote_home_team q).

Definition for_away (q : Quote) (outcome : Outcome) : bool :=
  negb (get_is (outcome_name outcome) (quote_home_team q))
  && get_is (outcome_name outcome) (quote_away_team q).

(** The price of an outcome: [0.0] when it has none. *)
Definition price_of (outcome : Outcome) : float :=
  get (outcome_price outcome) 0%float.

(** The price that a market gives a team: that of the last outcome that
    counts for the team, if any. *)
Definition home_price (q : Quote) : option float :=
  option_map price_of (last_error (filter (for_home q) (quote_outcomes q))).

Definition away_price (q : Quote) : option float :=
  option_map price_of (last_error (filter (for_away q) (quote_outcomes q))).

(** A market is complete when it gives a price to both teams. *)
Definition complete (q : Quote) : bool :=
  match home_price q, away_price q with
  | Some _, Some _ => true
  | _, _ => false
  end.

(** The record of a complete market. *)
Definition quote_record (sport : string) (q : Quote) : OddsRecord :=
  mkOdds sport (quote_home_team q) (quote_away_team q) (quote_bookmaker q)
    (get (home_price q) 0%float) (get (away_price q) 0%float).

(** Who and what a record is about, without its prices. *)
Definition heading (odd : OddsRecord) : string * string * string * string :=
  (sport odd, home_team odd, away_team odd, bookmaker odd).

(** A new value if there is one, the old one otherwise. *)
Definition or_else {A : Type} (new old : option A) : option A :=
  match new with
  | Some v => Some v
  | None => old
  end.

(** The body of the loop over the markets, on an h2h market. *)
Definition quote_step (sport : string) (q : Quote)
  (state : list OddsRecord * prices)
  : (list OddsRecord * prices) * option string :=
  market_step sport (quote_home_team q) (quote_away_team q) (quote_bookmaker q)
    (mkMarket (Some "h2h"%string) (Some (quote_outcomes q))) state.

(** A reply that is not a response of status 200 with a body. *)
Definition failed {A : Type} (reply : raised + response A) : bool :=
  match reply with
  | inl _ => true
  | inr r =>
      negb (status_code r =? 200)%Z
      || match json r with inl _ => true | inr _ => false end
  end.


(** ** Payloads of the examples *)

Definition outcome (name : string) (price : float) : Outcome :=
  mkOutcome (Some name) (Some price).

Definition h2h (outcomes : list Outcome) : Market :=
  mkMarket (Some "h2h"%string) (Some outcomes).

(** Two bookmakers with both prices; the first has a market of another
    kind as well. *)
Definition game_complete : Game :=
  mkGame (Some "Lakers"%string) (Some "Celtics"%string)
    (Some [mkBookmaker (Some "A"%string)
             (Some [mkMarket (Some "spreads"%string)
                      (Some [outcome "Lakers" 1.90]);
                    h2h [outcome "Lakers" 2.10; outcome "Celtics" 2.00]]);
           mkBookmaker (Some "B"%string)
             (Some [h2h [outcome "Lakers" 2.00; outcome "Celtics" 2.50]])]).

(** The second bookmaker quotes the home team only, and without a
    price. *)
Definition game_home_only : Game :=
  mkGame (Some "Lakers"%string) (Some "Celtics"%string)
    (Some [mkBookmaker (Some "A"%string)
             (Some [h2h [outcome "Lakers" 2.10; outcome "Celtics" 2.00]]);
           mkBookmaker (Some "B"%string)
             (Some [h2h [mkOutcome (Some "Lakers"%string) None]])]).

(** The first bookmaker quotes the away team only. *)
Definition game_away_first : Game :=
  mkGame (Some "Lakers"%string) (Some "Celtics"%string)
    (Some [mkBookmaker (Some "A"%string) (Some [h2h [outcome "Celtics" 2.00]]);
           mkBookmaker (Some "B"%string)
             (Some [h2h [outcome "Lakers" 2.00; outcome "Celtics" 2.50]])]).

(** A network that answers every request for odds with one payload. *)
Definition odds_reply (data : list Game) (url : string)
  : raised + response (list Game) :=
  inr (mkResponse 200 (inr data)).




(** A network that answers every request for sports with one list. *)
Definition sports_reply (entries : list SportEntry) (url : string)
  : raised + response (list SportEntry) :=
  inr (mkResponse 200 (inr entries)).

(** A network that is down. *)
Definition no_reply {A : Type} (url : string) : raised + response A :=
  inl (RequestException "Connection refused").

(** [str(e)] of an [UnboundLocalError] in CPython 3.11. *)
Definition unbound_311 (variable : string) : string :=
  "cannot access local variable '" ++ variable
  ++ "' where it is not associated with a value".

(** * Proofs *)

(** ** Binary64: reciprocals and sums of positive numbers

    [1/h + 1/a] is positive, hence not zero, for positive finite [h] and
    [a]: the third division of [pair_step] cannot fail on valid
    records.  The proof goes through the specification of the primitive
    operations ([SpecFloat]). *)

Section Binary64.
Local Open Scope Z_scope.

Lemma digits2_pos_bounds (m : positive) :
  2 ^ (Zpos (digits2_pos m) - 1) <= Zpos m < 2 ^ Zpos (digits2_pos m).
Proof.
  induction m as [p IH | p IH | ]; simpl digits2_pos.
  - rewrite Pos2Z.inj_succ.
    replace (Z.succ (Zpos (digits2_pos p)) - 1) with (Z.succ (Zpos (digits2_pos p) - 1)) by lia.
    rewrite !Z.pow_succ_r by lia. lia.
  - rewrite Pos2Z.inj_succ.
    replace (Z.succ (Zpos (digits2_pos p)) - 1) with (Z.succ (Zpos (digits2_pos p) - 1)) by lia.
    rewrite !Z.pow_succ_r by lia. lia.
  - simpl. lia.
Qed.

Lemma shr_1_m (mrs : shr_record) :
  0 <= shr_m mrs -> shr_m (shr_1 mrs) = shr_m mrs / 2.
Proof.
  destruct mrs as [m r s]. simpl. intros Hm.
  rewrite <- Z.div2_div.
  destruct m as [ | [p | p | ] | p]; try reflexivity. lia.
Qed.

Lemma iter_shr_1_m (p : positive) : forall mrs,
  0 <= shr_m mrs ->
  shr_m (iter_pos shr_1 p mrs) = shr_m mrs / 2 ^ Zpos p.
Proof.
  induction p as [p IH | p IH | ]; intros mrs Hm; simpl iter_pos.
  - assert (H1 : 0 <= shr_m (shr_1 mrs)).
    { rewrite shr_1_m by assumption. apply Z.div_pos; lia. }
    assert (H2 : 0 <= shr_m (iter_pos shr_1 p (shr_1 mrs))).
    { rewrite IH by assumption. apply Z.div_pos; lia. }
    rewrite IH, IH, shr_1_m by assumption.
    rewrite !Z.div_div by lia.
    f_equal. replace (Zpos p~1) with (1 + Zpos p + Zpos p) by lia.
    rewrite !Z.pow_add_r by lia. change (2 ^ 1) with 2. ring.
  - assert (H2 : 0 <= shr_m (iter_pos shr_1 p mrs)).
    { rewrite IH by assumption. apply Z.div_pos; lia. }
    rewrite IH, IH by assumption.
    rewrite !Z.div_div by lia.
    f_equal. replace (Zpos p~0) with (Zpos p + Zpos p) by lia.
    rewrite !Z.pow_add_r by lia. reflexivity.
  - apply shr_1_m. assumption.
Qed.

(** Shifting a positive mantissa right by fewer places than it has digits
    leaves a positive mantissa. *)
Lemma shr_m_pos (m : positive) (l : location) (e n : Z) :
  n <= Zpos (digits2_pos m) - 1 ->
  0 < shr_m (fst (shr (shr_record_of_loc (Zpos m) l) e n)).
Proof.
  intros Hn.
  assert (Hrec : shr_m (shr_record_of_loc (Zpos m) l) = Zpos m).
  { destruct l as [ | [ | | ]]; reflexivity. }
  destruct n as [ | p | p]; simpl; rewrite ?Hrec; try lia.
  rewrite iter_shr_1_m by (rewrite Hrec; lia).
  rewrite Hrec. apply Z.div_str_pos. split; [lia | ].
  pose proof (digits2_pos_bounds m) as [Hlo _].
  apply Z.le_trans with (2 := Hlo).
  apply Z.pow_le_mono_r; lia.
Qed.

Lemma shr_e (mrs : shr_record) (e n : Z) :
  snd (shr mrs e n) = e + Z.max n 0.
Proof. destruct n; simpl; lia. Qed.

Lemma shr_fexp_pos (m : positive) (e : Z) (l : location) :
  emin <= e ->
  0 < shr_m (fst (shr_fexp prec emax (Zpos m) e l))
  /\ emin <= snd (shr_fexp prec emax (Zpos m) e l).
Proof.
  intros He. unfold shr_fexp. split.
  - apply shr_m_pos. unfold fexp, Zdigits2, SpecFloat.emin, emin, prec, emax in *. lia.
  - rewrite shr_e. lia.
Qed.

Lemma round_nearest_even_pos (m : Z) (l : location) :
  0 < m -> 0 < round_nearest_even m l.
Proof.
  intros Hm. destruct l as [ | [ | | ]]; simpl; try lia.
  destruct (Z.even m); lia.
Qed.

(** Rounding a positive mantissa whose exponent is in range never gives
    a zero, a negative number or a NaN. *)
Lemma binary_round_aux_positive (m : positive) (e : Z) (l : location) :
  emin <= e -> SFpositive (binary_round_aux prec emax false (Zpos m) e l).
Proof.
  intros He. unfold binary_round_aux.
  destruct (shr_fexp_pos m e l He) as [Hm1 He1].
  destruct (shr_fexp prec emax (Zpos m) e l) as [mrs1 e1]. simpl in Hm1, He1.
  pose proof (round_nearest_even_pos (shr_m mrs1) (loc_of_shr_record mrs1) Hm1) as Hr.
  destruct (round_nearest_even (shr_m mrs1) (loc_of_shr_record mrs1)) as [ | r | r];
    try lia.
  destruct (shr_fexp_pos r e1 loc_Exact He1) as [Hm2 He2].
  destruct (shr_fexp prec emax (Zpos r) e1 loc_Exact) as [mrs2 e2]. simpl in Hm2, He2.
  destruct (shr_m mrs2); try lia.
  destruct (e2 <=? emax - prec); exact I.
Qed.

Lemma bounded_inv (m : positive) (e : Z) :
  bounded prec emax m e = true ->
  emin <= e <= emax - prec /\ Zpos (digits2_pos m) <= prec.
Proof.
  unfold bounded, canonical_mantissa, fexp, SpecFloat.emin, emin, prec, emax.
  intros H. apply andb_true_iff in H as [H1 H2].
  apply Z.eqb_eq in H1. apply Z.leb_le in H2. lia.
Qed.

Lemma shl_align_e (m : positive) (e e' : Z) :
  snd (shl_align m e e') = Z.min e e'.
Proof.
  unfold shl_align. destruct (e' - e) eqn:E; simpl; lia.
Qed.

(** [1 / y] for a positive finite [y]. *)
Lemma SFdiv_one_positive (m : positive) (e : Z) :
  bounded prec emax m e = true ->
  SFpositive
    (SF64div (S754_finite false 4503599627370496 (-52)) (S754_finite false m e)).
Proof.
  intros Hb. apply bounded_inv in Hb as [[He1 He2] Hd].
  pose proof (digits2_pos_bounds m) as [_ Hm].
  assert (Hm53 : Zpos m < 2 ^ 53).
  { apply Z.lt_le_trans with (1 := Hm). apply Z.pow_le_mono_r; unfold prec in Hd; lia. }
  unfold SF64div, SFdiv, SFdiv_core_binary.
  change (Zdigits2 (Zpos 4503599627370496)) with 53.
  change (Zdigits2 (Zpos m)) with (Zpos (digits2_pos m)).
  set (e' := Z.min (fexp prec emax (53 + -52 - (Zpos (digits2_pos m) + e))) (-52 - e)).
  assert (He' : emin <= e' /\ 1 <= -52 - e - e').
  { unfold e', fexp, SpecFloat.emin, emin, prec, emax in *. lia. }
  destruct He' as [He'1 He'2].
  destruct (-52 - e - e') as [ | s | s] eqn:Es; try lia.
  rewrite Z.shiftl_mul_pow2 by lia.
  assert (Hs : 2 <= 2 ^ Zpos s).
  { change 2 with (2 ^ 1) at 1. apply Z.pow_le_mono_r; lia. }
  pose proof (Z_div_mod (4503599627370496 * 2 ^ Zpos s) (Zpos m) eq_refl) as Hq.
  destruct (Z.div_eucl (4503599627370496 * 2 ^ Zpos s) (Zpos m)) as [q r].
  destruct Hq as [Hq Hr].
  change (2 ^ 53) with 9007199254740992 in Hm53.
  assert (0 < q) by nia.
  destruct q as [ | q | q]; try lia.
  apply binary_round_aux_positive. exact He'1.
Qed.

Lemma SFadd_positive (x y : spec_float) :
  valid_binary x = true -> valid_binary y = true ->
  SFpositive x -> SFpositive y -> SFpositive (SF64add x y).
Proof.
  destruct x as [ | [ | ] | | [ | ] mx ex]; simpl; try tauto;
    destruct y as [ | [ | ] | | [ | ] my ey]; simpl; try tauto.
  intros Hx Hy _ _.
  apply bounded_inv in Hx as [[Hx _] _]. apply bounded_inv in Hy as [[Hy _] _].
  unfold SF64add, SFadd, binary_normalize, cond_Zopp.
  change (Zpos ?a + Zpos ?b) with (Zpos (a + b)).
  unfold binary_round.
  set (mz := (fst (shl_align mx ex (Z.min ex ey)) + fst (shl_align my ey (Z.min ex ey)))%positive).
  pose proof (shl_align_e mz (Z.min ex ey)
                (fexp prec emax (Zpos (digits2_pos mz) + Z.min ex ey))) as Hal.
  destruct (shl_align mz (Z.min ex ey) _) as [mz' ez']. cbn [snd] in Hal.
  apply binary_round_aux_positive.
  unfold fexp, SpecFloat.emin, emin, prec, emax in *. lia.
Qed.
End Binary64.

(** ** Positive finite doubles *)

Lemma Prim2SF_positive_finite (h : float) :
  (0 <? h)%float = true -> (h <? infinity)%float = true ->
  exists m e, Prim2SF h = S754_finite false m e /\ bounded prec emax m e = true.
Proof.
  rewrite !ltb_spec. intros H0 Hinf.
  pose proof (Prim2SF_valid h) as Hv.
  change (Prim2SF 0) with (S754_zero false) in H0.
  change (Prim2SF infinity) with (S754_infinity false) in Hinf.
  destruct (Prim2SF h) as [ | [ | ] | | [ | ] m e]; try discriminate.
  exists m, e. split; [reflexivity | exact Hv].
Qed.

Lemma SFpositive_div_one (h : float) :
  (0 <? h)%float = true -> (h <? infinity)%float = true ->
  SFpositive (Prim2SF (1 / h)).
Proof.
  intros H0 Hinf.
  destruct (Prim2SF_positive_finite h H0 Hinf) as (m & e & Hh & Hb).
  rewrite div_spec, Hh.
  change (Prim2SF 1) with (S754_finite false 4503599627370496 (-52)).
  apply SFdiv_one_positive. exact Hb.
Qed.

Lemma SFpositive_add (x y : float) :
  SFpositive (Prim2SF x) -> SFpositive (Prim2SF y) -> SFpositive (Prim2SF (x + y)).
Proof.
  intros Hx Hy. rewrite add_spec.
  apply SFadd_positive; auto using Prim2SF_valid.
Qed.

Lemma SFpositive_nonzero (s : float) :
  SFpositive (Prim2SF s) -> (s =? 0)%float = false /\ (0 <? s)%float = true.
Proof.
  rewrite eqb_spec, ltb_spec.
  change (Prim2SF 0) with (S754_zero false).
  destruct (Prim2SF s) as [ | [ | ] | | [ | ] m e]; simpl; intuition.
Qed.

Lemma SFcompare_antisym (x y : spec_float) :
  SFcompare y x = option_map CompOpp (SFcompare x y).
Proof.
  destruct x as [[ | ] | [ | ] | | [ | ] mx ex];
    destruct y as [[ | ] | [ | ] | | [ | ] my ey];
    try reflexivity; simpl;
    rewrite (Z.compare_antisym ex ey); destruct (ex ?= ey)%Z; simpl;
    try reflexivity;
    rewrite (ZC4 my mx); destruct (Pos.compare_cont Eq mx my); reflexivity.
Qed.

(** [x <= y] leaves no room for [y < x]. *)
Lemma leb_not_ltb (x y : float) :
  (x <=? y)%float = true -> (y <? x)%float = false.
Proof.
  rewrite leb_spec, ltb_spec. unfold SFleb, SFltb.
  rewrite (SFcompare_antisym (Prim2SF x) (Prim2SF y)).
  destruct (SFcompare (Prim2SF x) (Prim2SF y)) as [[ | | ] | ];
    simpl; congruence.
Qed.

Lemma positive_odds_inv (x : float) :
  positive_odds x = true ->
  (0 <? x)%float = true /\ (x <? infinity)%float = true.
Proof. unfold positive_odds. intros H. apply andb_true_iff in H. exact H. Qed.

Lemma positive_odds_nonzero (x : float) :
  positive_odds x = true -> (x =? 0)%float = false.
Proof.
  intros H. apply positive_odds_inv in H as [H0 Hinf].
  destruct (Prim2SF_positive_finite x H0 Hinf) as (m & e & Hx & _).
  apply SFpositive_nonzero. rewrite Hx. exact I.
Qed.

(** The sum of the reciprocals of two prices is positive. *)
Lemma arb_sum_positive (h a : float) :
  positive_odds h = true -> positive_odds a = true ->
  (arb_sum h a =? 0)%float = false /\ (0 <? arb_sum h a)%float = true.
Proof.
  intros Hh Ha.
  apply positive_odds_inv in Hh as [Hh0 Hhinf].
  apply positive_odds_inv in Ha as [Ha0 Hainf].
  apply SFpositive_nonzero. unfold arb_sum.
  apply SFpositive_add; apply SFpositive_div_one; assumption.
Qed.

(** ** The innermost step *)

Lemma truediv_ok (x y : float) :
  (y =? 0)%float = false -> truediv x y = Ok (x / y)%float.
Proof. unfold truediv. intros ->. reflexivity. Qed.

Lemma truediv_zero (x y : float) :
  (y =? 0)%float = true -> truediv x y = Raise ZeroDivisionError.
Proof. unfold truediv. intros ->. reflexivity. Qed.

Lemma truediv_raises (x y : float) (e : exn) :
  truediv x y = Raise e -> e = ZeroDivisionError.
Proof. unfold truediv. destruct (y =? 0)%float; congruence. Qed.

(** On a pair of positive prices the step raises nothing: it appends the
    opportunity of the pair when the pair qualifies. *)
Lemma pair_step_positive (sport home away : string) (odd1 odd2 : OddsRecord)
  (acc : list Arb.t) :
  positive_odds (home_odds odd1) = true ->
  positive_odds (away_odds odd2) = true ->
  pair_step sport home away odd1 odd2 acc
  = Ok (if qualifies odd1 odd2
        then acc ++ [opportunity sport home away odd1 odd2]
        else acc).
Proof.
  intros Hh Ha.
  destruct (arb_sum_positive _ _ Hh Ha) as [Hs _].
  unfold pair_step, qualifies, opportunity, profit_percent.
  rewrite (truediv_ok _ _ (positive_odds_nonzero _ Hh)).
  rewrite (truediv_ok _ _ (positive_odds_nonzero _ Ha)).
  cbn [bind]. fold (arb_sum (home_odds odd1) (away_odds odd2)).
  destruct (arb_sum (home_odds odd1) (away_odds odd2) <? 1)%float;
    [ | reflexivity].
  rewrite (truediv_ok _ _ Hs). reflexivity.
Qed.

(** The step raises nothing but [ZeroDivisionError]. *)
Lemma pair_step_raises (sport home away : string) (odd1 odd2 : OddsRecord)
  (acc : list Arb.t) (e : exn) :
  pair_step sport home away odd1 odd2 acc = Raise e -> e = ZeroDivisionError.
Proof.
  unfold pair_step.
  destruct (truediv 1 (home_odds odd1)) as [x | e1] eqn:E1; cbn [bind];
    [ | intros [= <-]; exact (truediv_raises _ _ _ E1)].
  destruct (truediv 1 (away_odds odd2)) as [y | e2] eqn:E2; cbn [bind];
    [ | intros [= <-]; exact (truediv_raises _ _ _ E2)].
  destruct (x + y <? 1)%float; [ | discriminate].
  destruct (truediv 1 (x + y)) as [q | e3] eqn:E3; cbn [bind];
    [discriminate | intros [= <-]; exact (truediv_raises _ _ _ E3)].
Qed.

(** Positive is not enough without finite: the reciprocals of two
    infinite prices add up to zero, and the third division raises. *)
Remark pair_step_infinite_odds (sport home away name1 name2 : string)
  (rows : list Arb.t) :
  pair_step sport home away
    (mkOdds sport home away name1 infinity infinity)
    (mkOdds sport home away name2 infinity infinity) rows
  = Raise ZeroDivisionError.
Proof. reflexivity. Qed.

(** A zero price in either leg makes the step raise. *)
Lemma pair_step_zero (sport home away : string) (odd1 odd2 : OddsRecord)
  (acc : list Arb.t) :
  (home_odds odd1 =? 0)%float = true \/ (away_odds odd2 =? 0)%float = true ->
  pair_step sport home away odd1 odd2 acc = Raise ZeroDivisionError.
Proof.
  intros H. unfold pair_step.
  destruct (home_odds odd1 =? 0)%float eqn:E1.
  - rewrite (truediv_zero _ _ E1). reflexivity.
  - rewrite (truediv_ok _ _ E1). cbn [bind].
    destruct H as [H | H]; [discriminate | ].
    rewrite (truediv_zero _ _ H). reflexivity.
Qed.

(** ** Loops *)

Lemma bind_ext {A B : Type} (r : result A) (k1 k2 : A -> result B) :
  (forall a, k1 a = k2 a) -> bind r k1 = bind r k2.
Proof. intros H. destruct r; simpl; auto. Qed.

Lemma for_each_app {A S : Type} (xs ys : list A) (body : A -> S -> result S) :
  forall s,
  for_each (xs ++ ys) body s = bind (for_each xs body s) (for_each ys body).
Proof.
  induction xs as [ | x xs IH]; intros s; simpl; [reflexivity | ].
  destruct (body x s) as [s' | e]; simpl; [apply IH | reflexivity].
Qed.

Lemma for_each_map {A B S : Type} (f : A -> B) (xs : list A)
  (body : B -> S -> result S) :
  forall s, for_each (map f xs) body s = for_each xs (fun x => body (f x)) s.
Proof.
  induction xs as [ | x xs IH]; intros s; simpl; [reflexivity | ].
  apply bind_ext. exact IH.
Qed.

Lemma for_each_flat_map {A B S : Type} (f : A -> list B) (xs : list A)
  (body : B -> S -> result S) :
  forall s,
  for_each (flat_map f xs) body s
  = for_each xs (fun x => for_each (f x) body) s.
Proof.
  induction xs as [ | x xs IH]; intros s; simpl; [reflexivity | ].
  rewrite for_each_app. apply bind_ext. exact IH.
Qed.

(** A body that never raises makes the loop a fold. *)
Lemma for_each_pure {A S : Type} (xs : list A) (body : A -> S -> result S)
  (f : A -> S -> S) :
  (forall x s, body x s = Ok (f x s)) ->
  forall s, for_each xs body s = Ok (fold_left (fun s x => f x s) xs s).
Proof.
  intros H. induction xs as [ | x xs IH]; intros s; simpl; [reflexivity | ].
  rewrite H. simpl. apply IH.
Qed.

(** What the loop raises, its body raised. *)
Lemma for_each_raises {A S : Type} (P : exn -> Prop) (xs : list A)
  (body : A -> S -> result S) :
  (forall x s e, body x s = Raise e -> P e) ->
  forall s e, for_each xs body s = Raise e -> P e.
Proof.
  intros H. induction xs as [ | x xs IH]; intros s e; simpl; [discriminate | ].
  destruct (body x s) as [s' | e'] eqn:E; simpl.
  - apply IH.
  - intros [= <-]. exact (H _ _ _ E).
Qed.

(** A loop that comes to an element at which its body always raises,
    raises, there or before. *)
Lemma for_each_In_raise {A S : Type} (xs : list A) (body : A -> S -> result S)
  (x : A) :
  In x xs -> (forall s, exists e, body x s = Raise e) ->
  forall s, exists e, for_each xs body s = Raise e.
Proof.
  intros Hin Hx. induction xs as [ | y xs IH]; [destruct Hin | ].
  intros s. simpl. destruct Hin as [-> | Hin].
  - destruct (Hx s) as [e ->]. exists e. reflexivity.
  - destruct (body y s) as [s' | e]; simpl; [apply IH, Hin | eauto].
Qed.

(** ** The two loops over a group *)

Lemma skipn_past {A : Type} (pre suf : list A) (x : A) :
  skipn (List.length pre + 1) (pre ++ x :: suf) = suf.
Proof.
  induction pre as [ | y pre IH]; simpl; [reflexivity | exact IH].
Qed.

Lemma group_loop_from (sport home away : string) (suf : list OddsRecord) :
  forall (pre : list OddsRecord) (acc : list Arb.t),
  for_each (combine (seq (List.length pre) (List.length suf)) suf)
    (fun '(i, odd1) =>
       for_each (skipn (i + 1) (pre ++ suf)) (pair_step sport home away odd1))
    acc
  = for_each (pairs suf)
      (fun p => pair_step sport home away (fst p) (snd p)) acc.
Proof.
  induction suf as [ | x r IH]; intros pre acc; [reflexivity | ].
  cbn [List.length seq combine for_each pairs].
  rewrite skipn_past, for_each_app, for_each_map. cbn [fst snd].
  apply bind_ext. intros acc'.
  specialize (IH (pre ++ [x]) acc').
  rewrite <- app_assoc in IH. cbn [app] in IH.
  rewrite length_app in IH. cbn [List.length] in IH.
  rewrite Nat.add_1_r in IH. exact IH.
Qed.

(** The two loops visit the pairs of the group, one after the other. *)
Lemma group_loop_pairs (sport home away : string) (group : list OddsRecord)
  (acc : list Arb.t) :
  group_loop sport home away group acc
  = for_each (pairs group)
      (fun p => pair_step sport home away (fst p) (snd p)) acc.
Proof. exact (group_loop_from sport home away group [] acc). Qed.

(** ** Pair enumeration by indices *)

Lemma flat_map_map {A B C : Type} (f : B -> list C) (g : A -> B) (l : list A) :
  flat_map f (map g l) = flat_map (fun x => f (g x)) l.
Proof.
  induction l as [ | x l IH]; simpl; [reflexivity | now rewrite IH].
Qed.

Lemma map_flat_map {A B C : Type} (f : B -> C) (g : A -> list B) (l : list A) :
  map f (flat_map g l) = flat_map (fun x => map f (g x)) l.
Proof.
  induction l as [ | x l IH]; simpl; [reflexivity | ].
  now rewrite map_app, IH.
Qed.

Lemma index_pairs_S (n : nat) :
  index_pairs (S n)
  = map (pair 0) (seq 1 n)
    ++ map (fun ij => (S (fst ij), S (snd ij))) (index_pairs n).
Proof.
  unfold index_pairs. cbn [seq flat_map].
  replace (S n - 1) with n by lia. f_equal.
  rewrite <- seq_shift, flat_map_map, map_flat_map.
  apply flat_map_ext. intros i.
  rewrite map_map. cbn [fst snd].
  replace (S n - S (S i)) with (n - S i) by lia.
  rewrite <- (seq_shift (n - S i) (S i)), map_map. reflexivity.
Qed.

Lemma In_index_pairs (n i j : nat) :
  In (i, j) (index_pairs n) <-> i < j < n.
Proof.
  unfold index_pairs. rewrite in_flat_map. split.
  - intros (i' & Hi & Hj). apply in_map_iff in Hj as (j' & [= <- <-] & Hj).
    apply in_seq in Hi. apply in_seq in Hj. lia.
  - intros H. exists i. split; [apply in_seq; lia | ].
    apply in_map_iff. exists j. split; [reflexivity | apply in_seq; lia].
Qed.

Lemma NoDup_index_pairs (n : nat) : NoDup (index_pairs n).
Proof.
  induction n as [ | n IH]; [constructor | ].
  rewrite index_pairs_S. apply NoDup_app.
  - apply Injective_map_NoDup; [ | apply seq_NoDup].
    intros a b [= ->]. reflexivity.
  - apply Injective_map_NoDup; [ | exact IH].
    intros [a1 a2] [b1 b2] [= -> ->]. reflexivity.
  - intros [i j] H1 H2.
    apply in_map_iff in H1 as (j' & [= <- <-] & _).
    apply in_map_iff in H2 as (ij & [= ] & _).
Qed.

Lemma records_from (odd1 : OddsRecord) (rest : list OddsRecord) :
  forall pre : list OddsRecord,
  flat_map
    (fun j => match nth_error (pre ++ rest) j with
              | Some odd2 => [(odd1, odd2)]
              | None => []
              end)
    (seq (List.length pre) (List.length rest))
  = map (pair odd1) rest.
Proof.
  induction rest as [ | y rest IH]; intros pre; [reflexivity | ].
  cbn [List.length seq flat_map map].
  rewrite nth_error_app2, Nat.sub_diag by lia. cbn [nth_error app]. f_equal.
  specialize (IH (pre ++ [y])).
  rewrite <- app_assoc, length_app in IH. cbn [List.length app] in IH.
  rewrite Nat.add_1_r in IH. exact IH.
Qed.

(** The pairs that the two loops visit are the pairs [(i, j)], [i < j],
    of the specification, in its order. *)
Lemma candidates_pairs (group : list OddsRecord) :
  candidates group = pairs group.
Proof.
  induction group as [ | x r IH]; [reflexivity | ].
  unfold candidates. cbn [List.length pairs].
  rewrite index_pairs_S, flat_map_app, !flat_map_map. f_equal.
  - exact (records_from x r [x]).
  - exact IH.
Qed.

(** ** Grouping *)

Lemma key_eqb_eq (k1 k2 : EventKey) : key_eqb k1 k2 = true <-> k1 = k2.
Proof.
  destruct k1 as [[s1 h1] a1], k2 as [[s2 h2] a2]. unfold key_eqb.
  rewrite !andb_true_iff, !String.eqb_eq. split.
  - intros [[-> ->] ->]. reflexivity.
  - intros [= -> -> ->]. auto.
Qed.

Lemma key_eqb_refl (k : EventKey) : key_eqb k k = true.
Proof. now apply key_eqb_eq. Qed.

Lemma key_eqb_neq (k1 k2 : EventKey) : key_eqb k1 k2 = false <-> k1 <> k2.
Proof.
  rewrite <- key_eqb_eq. destruct (key_eqb k1 k2); split; congruence.
Qed.

Lemma existsb_key (key : EventKey) (keys : list EventKey) :
  existsb (key_eqb key) keys = true <-> In key keys.
Proof.
  rewrite existsb_exists. split.
  - intros (k & Hin & Hk). apply key_eqb_eq in Hk. now subst.
  - intros Hin. exists key. split; [exact Hin | apply key_eqb_refl].
Qed.

Lemma group_step_known (odd : OddsRecord) (d : dict (list OddsRecord)) :
  contains (key_of odd) d = true ->
  bind (getitem (key_of odd) d)
    (fun g => Ok (setitem (key_of odd) (g ++ [odd]) d))
  = Ok (add_to_group odd d).
Proof.
  induction d as [ | [k g] d IH];
    cbn [contains getitem setitem add_to_group]; [discriminate | ].
  destruct (key_eqb (key_of odd) k) eqn:E; cbn [orb bind]; [reflexivity | ].
  intros Hc. specialize (IH Hc).
  destruct (getitem (key_of odd) d) as [g0 | e]; cbn [bind] in *; congruence.
Qed.

Lemma group_step_new (odd : OddsRecord) (d : dict (list OddsRecord)) :
  contains (key_of odd) d = false ->
  bind (getitem (key_of odd) (setitem (key_of odd) [] d))
    (fun g => Ok (setitem (key_of odd) (g ++ [odd])
                    (setitem (key_of odd) [] d)))
  = Ok (add_to_group odd d).
Proof.
  induction d as [ | [k g] d IH];
    cbn [contains getitem setitem add_to_group].
  - intros _. rewrite key_eqb_refl. reflexivity.
  - destruct (key_eqb (key_of odd) k) eqn:E; cbn [orb]; [discriminate | ].
    intros Hc. specialize (IH Hc). cbn [getitem]. rewrite E.
    destruct (getitem (key_of odd) (setitem (key_of odd) [] d)) as [g0 | e];
      cbn [bind setitem] in *; [rewrite E | ]; congruence.
Qed.

(** The body of the grouping loop never raises. *)
Lemma group_step_add (odd : OddsRecord) (d : dict (list OddsRecord)) :
  group_step odd d = Ok (add_to_group odd d).
Proof.
  unfold group_step. fold (key_of odd).
  destruct (contains (key_of odd) d) eqn:C; cbn [negb].
  - exact (group_step_known odd d C).
  - exact (group_step_new odd d C).
Qed.

Lemma groups_of_other (odd : OddsRecord) (l : list OddsRecord)
  (keys : list EventKey) :
  (forall k, In k keys -> key_eqb (key_of odd) k = false) ->
  groups_of (l ++ [odd]) keys = groups_of l keys.
Proof.
  intros H. unfold groups_of. apply map_ext_in. intros k Hk.
  rewrite filter_app. cbn [filter].
  change (has_key k odd) with (key_eqb (key_of odd) k).
  rewrite (H k Hk), app_nil_r. reflexivity.
Qed.

Lemma add_to_group_known (odd : OddsRecord) (l : list OddsRecord)
  (keys : list EventKey) :
  NoDup keys -> In (key_of odd) keys ->
  add_to_group odd (groups_of l keys) = groups_of (l ++ [odd]) keys.
Proof.
  induction keys as [ | k keys IH]; intros Hnd Hin; [destruct Hin | ].
  inversion Hnd as [ | k' keys' Hk Hnd']; subst.
  cbn [groups_of map add_to_group]. fold (groups_of l keys).
  fold (groups_of (l ++ [odd]) keys).
  rewrite filter_app. cbn [filter].
  change (has_key k odd) with (key_eqb (key_of odd) k).
  destruct (key_eqb (key_of odd) k) eqn:E.
  - apply key_eqb_eq in E. subst k. f_equal. symmetry.
    apply groups_of_other. intros k' Hk'. apply key_eqb_neq.
    intros Heq. subst k'. contradiction.
  - rewrite app_nil_r. f_equal. apply IH; [exact Hnd' | ].
    destruct Hin as [Heq | Hin]; [ | exact Hin].
    apply key_eqb_neq in E. congruence.
Qed.

Lemma add_to_group_new (odd : OddsRecord) (l : list OddsRecord)
  (keys : list EventKey) :
  (forall k, In k keys -> key_eqb (key_of odd) k = false) ->
  filter (has_key (key_of odd)) l = [] ->
  add_to_group odd (groups_of l keys)
  = groups_of (l ++ [odd]) (keys ++ [key_of odd]).
Proof.
  intros Hk Hl. induction keys as [ | k keys IH].
  - cbn [groups_of map add_to_group app]. rewrite filter_app, Hl.
    cbn [filter]. change (has_key (key_of odd) odd)
      with (key_eqb (key_of odd) (key_of odd)).
    rewrite key_eqb_refl. reflexivity.
  - cbn [groups_of map add_to_group app]. fold (groups_of l keys).
    fold (groups_of (l ++ [odd]) (keys ++ [key_of odd])).
    rewrite filter_app. cbn [filter].
    change (has_key k odd) with (key_eqb (key_of odd) k).
    rewrite (Hk k (or_introl eq_refl)), app_nil_r. f_equal.
    apply IH. intros k' Hk'. apply Hk. right. exact Hk'.
Qed.

Lemma filter_has_key_nil (key : EventKey) (l : list OddsRecord) :
  (forall odd, In odd l -> key_of odd <> key) ->
  filter (has_key key) l = [].
Proof.
  induction l as [ | x l IH]; intros H; [reflexivity | ].
  cbn [filter]. change (has_key key x) with (key_eqb (key_of x) key).
  destruct (key_eqb (key_of x) key) eqn:E.
  - apply key_eqb_eq in E. exfalso. exact (H x (or_introl eq_refl) E).
  - apply IH. intros odd Hodd. apply H. right. exact Hodd.
Qed.

Lemma fold_add_to_group (l2 : list OddsRecord) :
  forall (l1 : list OddsRecord) (keys : list EventKey),
  NoDup keys ->
  (forall odd, In odd l1 -> In (key_of odd) keys) ->
  fold_left (fun d odd => add_to_group odd d) l2 (groups_of l1 keys)
  = groups_of (l1 ++ l2) (keys ++ first_seen keys l2).
Proof.
  induction l2 as [ | odd l2 IH]; intros l1 keys Hnd Hcov.
  - cbn [fold_left first_seen]. now rewrite !app_nil_r.
  - cbn [fold_left first_seen].
    replace (l1 ++ odd :: l2) with ((l1 ++ [odd]) ++ l2)
      by (now rewrite <- app_assoc).
    destruct (existsb (key_eqb (key_of odd)) keys) eqn:E.
    + apply existsb_key in E.
      rewrite add_to_group_known by assumption.
      apply IH; [exact Hnd | ].
      intros r Hr. apply in_app_or in Hr as [Hr | [<- | []]]; auto.
    + assert (Hnew : ~ In (key_of odd) keys).
      { intros Hin. apply existsb_key in Hin. congruence. }
      rewrite add_to_group_new.
      * replace (keys ++ key_of odd :: first_seen (keys ++ [key_of odd]) l2)
          with ((keys ++ [key_of odd]) ++ first_seen (keys ++ [key_of odd]) l2)
          by (now rewrite <- app_assoc).
        apply IH.
        -- apply NoDup_app; [exact Hnd | repeat constructor; intros [] | ].
           intros k Hk [<- | []]. contradiction.
        -- intros r Hr. apply in_or_app.
           apply in_app_or in Hr as [Hr | [<- | []]]; [left; auto | right; now left].
      * intros k Hk. apply key_eqb_neq. intros Heq. subst k. contradiction.
      * apply filter_has_key_nil. intros r Hr Heq.
        apply Hnew. rewrite <- Heq. auto.
Qed.

(** The grouping loop builds the grouping of the specification, and
    raises nothing. *)
Lemma event_odds_grouped (odds_list : list OddsRecord) :
  event_odds odds_list = Ok (grouped odds_list).
Proof.
  unfold event_odds.
  rewrite (for_each_pure odds_list group_step add_to_group group_step_add).
  f_equal.
  exact (fold_add_to_group odds_list [] [] (NoDup_nil _) (fun _ H => H)).
Qed.

Lemma first_seen_spec (l : list OddsRecord) :
  forall seen : list EventKey,
  NoDup seen ->
  NoDup (seen ++ first_seen seen l)
  /\ (forall k, In k (seen ++ first_seen seen l)
               <-> In k seen \/ exists odd, In odd l /\ key_of odd = k).
Proof.
  induction l as [ | odd l IH]; intros seen Hnd; cbn [first_seen].
  - rewrite app_nil_r. split; [exact Hnd | ].
    intros k. split; [auto | intros [H | (r & [] & _)]; exact H].
  - destruct (existsb (key_eqb (key_of odd)) seen) eqn:E.
    + apply existsb_key in E. destruct (IH seen Hnd) as [H1 H2].
      split; [exact H1 | ]. intros k. rewrite H2. split.
      * intros [H | (r & Hr & Hk)]; [now left | right].
        exists r. split; [now right | exact Hk].
      * intros [H | (r & [<- | Hr] & Hk)]; [now left | left | right].
        -- now subst k.
        -- now exists r.
    + assert (Hnew : ~ In (key_of odd) seen).
      { intros Hin. apply existsb_key in Hin. congruence. }
      assert (Hnd' : NoDup (seen ++ [key_of odd])).
      { apply NoDup_app; [exact Hnd | repeat constructor; intros [] | ].
        intros k Hk [<- | []]. contradiction. }
      destruct (IH _ Hnd') as [H1 H2].
      rewrite <- app_assoc in H1. cbn [app] in H1.
      split; [exact H1 | ]. intros k.
      specialize (H2 k). rewrite <- app_assoc in H2. cbn [app] in H2.
      rewrite H2, in_app_iff. cbn [In]. split.
      * intros [[H | [<- | []]] | (r & Hr & Hk)].
        -- now left.
        -- right. exists odd. split; [now left | reflexivity].
        -- right. exists r. split; [now right | exact Hk].
      * intros [H | (r & [<- | Hr] & Hk)].
        -- left. now left.
        -- left. right. left. exact Hk.
        -- right. now exists r.
Qed.

(** ** The calculator *)

Lemma for_each_pure_in {A S : Type} (xs : list A) (body : A -> S -> result S)
  (f : A -> S -> S) :
  (forall x, In x xs -> forall s, body x s = Ok (f x s)) ->
  forall s, for_each xs body s = Ok (fold_left (fun s x => f x s) xs s).
Proof.
  induction xs as [ | x xs IH]; intros H s; [reflexivity | ].
  cbn [for_each fold_left]. rewrite (H x (or_introl eq_refl)). cbn [bind].
  apply IH. intros y Hy. apply H. right. exact Hy.
Qed.

Lemma fold_left_keep {A B : Type} (keep : A -> bool) (f : A -> B) (xs : list A) :
  forall acc : list B,
  fold_left (fun acc x => if keep x then acc ++ [f x] else acc) xs acc
  = acc ++ map f (filter keep xs).
Proof.
  induction xs as [ | x xs IH]; intros acc; cbn [fold_left filter].
  - now rewrite app_nil_r.
  - rewrite IH. destruct (keep x); [ | reflexivity].
    cbn [map]. now rewrite <- app_assoc.
Qed.

Lemma In_pairs (group : list OddsRecord) (odd1 odd2 : OddsRecord) :
  In (odd1, odd2) (pairs group) -> In odd1 group /\ In odd2 group.
Proof.
  induction group as [ | x r IH]; cbn [pairs]; [intros [] | ].
  intros H. apply in_app_or in H as [H | H].
  - apply in_map_iff in H as (y & [= <- <-] & Hy). split; [now left | now right].
  - destruct (IH H). split; now right.
Qed.

(** An earlier and a later record of a group make one of its pairs. *)
Lemma pairs_split (g1 g2 g3 : list OddsRecord) (odd1 odd2 : OddsRecord) :
  In (odd1, odd2) (pairs (g1 ++ odd1 :: g2 ++ odd2 :: g3)).
Proof.
  induction g1 as [ | x g1 IH]; cbn [app pairs]; apply in_or_app.
  - left. apply in_map. apply in_or_app. right. now left.
  - right. exact IH.
Qed.

(** On a group of valid records the two loops raise nothing and append
    the opportunities of the qualifying pairs. *)
Lemma group_loop_valid (sport home away : string) (group : list OddsRecord)
  (acc : list Arb.t) :
  (forall odd, In odd group -> valid_record odd = true) ->
  group_loop sport home away group acc
  = Ok (acc ++ qualifying_opportunities sport home away group).
Proof.
  intros Hv. rewrite group_loop_pairs.
  unfold qualifying_opportunities. rewrite candidates_pairs.
  rewrite <- fold_left_keep.
  apply for_each_pure_in with
    (f := fun p acc =>
            if qualifies (fst p) (snd p)
            then acc ++ [opportunity sport home away (fst p) (snd p)]
            else acc).
  intros [odd1 odd2] Hin s. cbn [fst snd].
  apply In_pairs in Hin as [H1 H2].
  apply Hv in H1. apply Hv in H2. unfold valid_record in H1, H2.
  apply andb_true_iff in H1 as [H1 _]. apply andb_true_iff in H2 as [_ H2].
  apply pair_step_positive; assumption.
Qed.

(** The calculator groups, collects, and returns the first. *)
Lemma compute_arbitrage_eq (odds_list : list OddsRecord) :
  compute_arbitrage odds_list
  = bind (arbitrage_opportunities (grouped odds_list))
      (fun opps => Ok (hd_error opps)).
Proof.
  destruct odds_list as [ | odd rest]; [reflexivity | ].
  unfold compute_arbitrage. rewrite event_odds_grouped. cbn [bind].
  apply bind_ext. intros [ | first others]; reflexivity.
Qed.

Lemma first_seen_same (key : EventKey) (group : list OddsRecord) :
  (forall odd, In odd group -> key_of odd = key) ->
  first_seen [key] group = [].
Proof.
  induction group as [ | x r IH]; intros H; [reflexivity | ].
  cbn [first_seen existsb]. rewrite (H x (or_introl eq_refl)), key_eqb_refl.
  cbn [orb]. apply IH. intros odd Hodd. apply H. now right.
Qed.

Lemma filter_has_key_all (key : EventKey) (group : list OddsRecord) :
  (forall odd, In odd group -> key_of odd = key) ->
  filter (has_key key) group = group.
Proof.
  induction group as [ | x r IH]; intros H; [reflexivity | ].
  cbn [filter]. change (has_key key x) with (key_eqb (key_of x) key).
  rewrite (H x (or_introl eq_refl)), key_eqb_refl. f_equal.
  apply IH. intros odd Hodd. apply H. now right.
Qed.

(** Records of one event make one group: the list itself. *)
Lemma grouped_single (key : EventKey) (group : list OddsRecord) :
  group <> [] ->
  (forall odd, In odd group -> key_of odd = key) ->
  grouped group = [(key, group)].
Proof.
  intros Hne H. unfold grouped, groups_of.
  destruct group as [ | x r]; [contradiction | ].
  cbn [first_seen existsb app].
  rewrite (H x (or_introl eq_refl)).
  rewrite first_seen_same by (intros odd Hodd; apply H; now right).
  cbn [map]. rewrite filter_has_key_all by exact H. reflexivity.
Qed.

(** A call on one record: one group of one record, no pair, no division. *)
Lemma compute_arbitrage_single (odd : OddsRecord) :
  compute_arbitrage [odd] = Ok None.
Proof.
  rewrite compute_arbitrage_eq.
  rewrite (grouped_single (key_of odd) [odd]);
    [reflexivity | discriminate | ].
  intros r [<- | []]. reflexivity.
Qed.

(** The calculator raises nothing but [ZeroDivisionError]. *)
Lemma arbitrage_opportunities_raises (d : dict (list OddsRecord)) (e : exn) :
  arbitrage_opportunities d = Raise e -> e = ZeroDivisionError.
Proof.
  unfold arbitrage_opportunities.
  apply for_each_raises with (P := fun e => e = ZeroDivisionError).
  intros [[[sport home] away] group] acc e'. rewrite group_loop_pairs.
  apply for_each_raises with (P := fun e => e = ZeroDivisionError).
  intros [odd1 odd2] acc' e''. apply pair_step_raises.
Qed.

(** ** The loop of [run] *)

Lemma arb_opportunities_none (arb_calc : list OddsRecord -> result (option Arb.t))
  (odds_data : list OddsRecord) :
  (forall odd, arb_calc [odd] = Ok None) ->
  arb_opportunities arb_calc odds_data = Ok [].
Proof.
  intros H. unfold arb_opportunities.
  rewrite (for_each_pure (firstn 1000 odds_data) (scan_step arb_calc)
             (fun _ acc => acc)).
  - f_equal. induction (firstn 1000 odds_data) as [ | x l IH];
      [reflexivity | exact IH].
  - intros odd acc. unfold scan_step. rewrite H. reflexivity.
Qed.

(** With a calculator that answers every call, the loop gives one row
    for each record it hands over. *)
Lemma for_each_scan_some (tag : list OddsRecord -> Arb.t) (l : list OddsRecord) :
  forall acc : list Arb.t,
  for_each l (scan_step (fun args => Ok (Some (tag args)))) acc
  = Ok (acc ++ map (fun odd => tag [odd]) l).
Proof.
  induction l as [ | x l IH]; intros acc; cbn [for_each map].
  - now rewrite app_nil_r.
  - unfold scan_step at 1. cbn [bind]. rewrite IH, <- app_assoc. reflexivity.
Qed.

Lemma fetch_all_prints (fetch_odds : string -> Fetch -> Fetch * list string)
  (sports : list string) :
  forall (self : Fetch) (out : list event),
  Forall is_print out ->
  Forall is_print (snd (fetch_all fetch_odds sports self out)).
Proof.
  unfold fetch_all.
  induction sports as [ | sport sports IH]; intros self out Hout;
    cbn [fold_left]; [exact Hout | ].
  destruct (fetch_odds sport self) as [self' lines]. apply IH.
  rewrite !Forall_app. repeat split; [exact Hout | repeat constructor | ].
  apply Forall_forall. intros ev Hev.
  apply in_map_iff in Hev as (line & <- & _). exact I.
Qed.

(** * The claims *)

(** C1, as the code has it.  For every group of valid records of one
    event, the loops of the calculator collect one opportunity for every
    qualifying pair [(i, j)], [i < j], with
    [1/record[i].home_odds + 1/record[j].away_odds < 1.0], in
    pair-enumeration order; the calculator returns the first of them
    only, or [None] when there is none. *)
Theorem C1_first_of_the_qualifying_pairs
  (sport home away : string) (group : list OddsRecord) :
  (forall odd, In odd group -> key_of odd = (sport, home, away)) ->
  (forall odd, In odd group -> valid_record odd = true) ->
  bind (event_odds group) arbitrage_opportunities
  = Ok (qualifying_opportunities sport home away group)
  /\ compute_arbitrage group
     = Ok (hd_error (qualifying_opportunities sport home away group)).
Proof.
  intros Hkey Hvalid.
  assert (Hall : arbitrage_opportunities (grouped group)
                 = Ok (qualifying_opportunities sport home away group)).
  { destruct group as [ | x r]; [reflexivity | ].
    rewrite (grouped_single (sport, home, away) (x :: r));
      [ | discriminate | exact Hkey].
    unfold arbitrage_opportunities. cbn [for_each].
    rewrite group_loop_valid by exact Hvalid. reflexivity. }
  split.
  - rewrite event_odds_grouped. exact Hall.
  - rewrite compute_arbitrage_eq, Hall. reflexivity.
Qed.

Lemma C1_three_bookmakers :
  compute_arbitrage [bookmaker_A; bookmaker_B; bookmaker_C]
  = Ok (hd_error
          (qualifying_opportunities "nba" "Lakers" "Celtics"
             [bookmaker_A; bookmaker_B; bookmaker_C])).
Proof.
  apply (C1_first_of_the_qualifying_pairs "nba" "Lakers" "Celtics"
           [bookmaker_A; bookmaker_B; bookmaker_C]).
  - intros odd [<- | [<- | [<- | []]]]; reflexivity.
  - intros odd [<- | [<- | [<- | []]]]; vm_compute; reflexivity.
Defined.

(** C1, as the specification has it, fails: of the three qualifying
    pairs of three bookmakers the calculator returns one. *)
Lemma C1_not_the_full_list :
  List.length
    (qualifying_opportunities "nba" "Lakers" "Celtics"
       [bookmaker_A; bookmaker_B; bookmaker_C]) = 3
  /\ returned (compute_arbitrage [bookmaker_A; bookmaker_B; bookmaker_C])
     <> qualifying_opportunities "nba" "Lakers" "Celtics"
          [bookmaker_A; bookmaker_B; bookmaker_C].
Proof.
  split; [vm_compute; reflexivity | ].
  intros H. apply (f_equal (@List.length Arb.t)) in H.
  vm_compute in H. discriminate H.
Qed.

(** C2.  [run] hands every record to the calculator alone, as a list of
    one: a list of one has no pair, the calculator answers [None], and so
    for every [odds_data] the run finds no opportunity, returns, and
    writes no file, whatever the Odds API sent. *)
Theorem C2_run_finds_nothing :
  (forall odd, pairs [odd] = [] /\ compute_arbitrage [odd] = Ok None)
  /\ (forall tag odds_data,
        arb_opportunities (fun args => Ok (Some (tag args))) odds_data
        = Ok (map (fun odd => tag [odd]) (firstn 1000 odds_data)))
  /\ (forall odds_data, arb_opportunities compute_arbitrage odds_data = Ok [])
  /\ (forall fetch_sports fetch_odds self,
        snd (run fetch_sports fetch_odds self) = Ok tt
        /\ Forall is_print (snd (fst (run fetch_sports fetch_odds self)))).
Proof.
  split; [ | split; [ | split]].
  - intros odd. split; [reflexivity | apply compute_arbitrage_single].
  - intros tag odds_data. unfold arb_opportunities.
    rewrite for_each_scan_some. reflexivity.
  - intros odds_data. apply arb_opportunities_none.
    exact compute_arbitrage_single.
  - intros fetch_sports fetch_odds self. unfold run.
    destruct (fetch_sports self) as [[sports self'] lines].
    assert (Hout : Forall is_print
                     ([Printed "Arbitrage bot is starting..."] ++ map Printed lines)).
    { apply Forall_app. split; [repeat constructor | ].
      apply Forall_forall. intros ev Hev.
      apply in_map_iff in Hev as (line & <- & _). exact I. }
    destruct sports as [ | sport sports].
    + cbn [fst snd]. split; [reflexivity | ].
      apply Forall_app. split; [exact Hout | repeat constructor].
    + pose proof (fetch_all_prints fetch_odds (sport :: sports) self' _ Hout)
        as Hfetch.
      destruct (fetch_all fetch_odds (sport :: sports) self' _)
        as [self'' out].
      cbn [snd] in Hfetch. cbv zeta.
      rewrite (arb_opportunities_none compute_arbitrage (odds_data self'')
                 compute_arbitrage_single).
      cbn [fst snd]. split; [reflexivity | ].
      rewrite !Forall_app. repeat split; [exact Hfetch | | ]; repeat constructor.
Qed.

(** C3, as the code has it.  [run] removes no record: each of the first
    1000 records of [odds_data], whatever its prices, is handed to the
    calculator as a list of one (a calculator that answers every call
    gives one row per record), and the grouping loop puts it in a group
    of its own.  No division follows in a group of one, so the loop of
    [run] ends without a fault and without an opportunity. *)
Theorem C3_no_record_is_removed (odds_data : list OddsRecord) :
  (forall tag,
     arb_opportunities (fun args => Ok (Some (tag args))) odds_data
     = Ok (map (fun odd => tag [odd]) (firstn 1000 odds_data)))
  /\ Forall (fun odd => event_odds [odd] = Ok [(key_of odd, [odd])])
       (firstn 1000 odds_data)
  /\ arb_opportunities compute_arbitrage odds_data = Ok [].
Proof.
  split; [ | split].
  - intros tag. unfold arb_opportunities.
    rewrite for_each_scan_some. reflexivity.
  - apply Forall_forall. intros odd _. rewrite event_odds_grouped. f_equal.
    apply grouped_single; [discriminate | ].
    intros r [<- | []]. reflexivity.
  - apply arb_opportunities_none. exact compute_arbitrage_single.
Qed.

(** C3, as the specification has it, fails: a record with no home price
    ([home_odds = 0.0]) is not valid, yet [run] hands it to the
    calculator, whose grouping loop puts it in a group. *)
Lemma C3_invalid_record_is_grouped :
  valid_record no_home_price = false
  /\ event_odds [no_home_price] = Ok [(key_of no_home_price, [no_home_price])]
  /\ ~ (forall arb_calc,
          arb_opportunities arb_calc [no_home_price]
          = arb_opportunities arb_calc (filter valid_record [no_home_price])).
Proof.
  split; [vm_compute; reflexivity | split; [vm_compute; reflexivity | ]].
  intros H.
  specialize (H (fun args =>
                   Ok (Some (opportunity "" "" "" no_home_price no_home_price)))).
  vm_compute in H. discriminate H.
Qed.

(** C4, as the code has it.  When a record of an event has a zero
    [home_odds], or a later record of the same event a zero [away_odds],
    the division of their pair raises [ZeroDivisionError] and the
    calculator lets it through; called on either record alone, as [run]
    calls it, the calculator divides nothing and returns [None], so the
    loop of [run] ends with no opportunity and no fault. *)
Theorem C4_zero_odds_raise
  (before between after : list OddsRecord) (odd1 odd2 : OddsRecord) :
  key_of odd1 = key_of odd2 ->
  (home_odds odd1 =? 0)%float = true \/ (away_odds odd2 =? 0)%float = true ->
  compute_arbitrage (before ++ odd1 :: between ++ odd2 :: after)
  = Raise ZeroDivisionError
  /\ compute_arbitrage [odd1] = Ok None
  /\ compute_arbitrage [odd2] = Ok None
  /\ arb_opportunities compute_arbitrage [odd1] = Ok []
  /\ arb_opportunities compute_arbitrage [odd2] = Ok [].
Proof.
  intros Hkey Hzero.
  split; [ | repeat split;
             first [ apply compute_arbitrage_single
                   | apply arb_opportunities_none;
                     exact compute_arbitrage_single ]].
  set (odds_list := before ++ odd1 :: between ++ odd2 :: after).
  set (group := filter (has_key (key_of odd1)) odds_list).
  assert (Hin : In (key_of odd1, group) (grouped odds_list)).
  { unfold grouped, groups_of.
    apply (in_map (fun key => (key, filter (has_key key) odds_list))).
    destruct (first_seen_spec odds_list [] (NoDup_nil _)) as [_ H].
    apply (H (key_of odd1)). right. exists odd1. split; [ | reflexivity].
    apply in_or_app. right. now left. }
  assert (Hpair : In (odd1, odd2) (pairs group)).
  { unfold group, odds_list.
    rewrite filter_app. cbn [filter].
    change (has_key (key_of odd1) odd1) with (key_eqb (key_of odd1) (key_of odd1)).
    rewrite key_eqb_refl, filter_app. cbn [filter].
    change (has_key (key_of odd1) odd2) with (key_eqb (key_of odd2) (key_of odd1)).
    rewrite <- Hkey, key_eqb_refl. apply pairs_split. }
  assert (Hraise : exists e, arbitrage_opportunities (grouped odds_list) = Raise e).
  { unfold arbitrage_opportunities.
    apply for_each_In_raise with (x := (key_of odd1, group)); [exact Hin | ].
    intros acc. unfold key_of at 1. rewrite group_loop_pairs.
    apply for_each_In_raise with (x := (odd1, odd2)); [exact Hpair | ].
    intros acc'. exists ZeroDivisionError. cbn [fst snd].
    apply pair_step_zero. exact Hzero. }
  destruct Hraise as [e He].
  rewrite compute_arbitrage_eq, He.
  apply arbitrage_opportunities_raises in He. subst e. reflexivity.
Qed.

Lemma C4_missing_home_price :
  compute_arbitrage ([] ++ no_home_price :: [] ++ bookmaker_B :: [])
  = Raise ZeroDivisionError
  /\ compute_arbitrage [no_home_price] = Ok None
  /\ compute_arbitrage [bookmaker_B] = Ok None
  /\ arb_opportunities compute_arbitrage [no_home_price] = Ok []
  /\ arb_opportunities compute_arbitrage [bookmaker_B] = Ok [].
Proof.
  apply (C4_zero_odds_raise [] [] [] no_home_price bookmaker_B).
  - reflexivity.
  - left. vm_compute. reflexivity.
Defined.

(** C4, as the specification has it, fails: on a pair whose home leg has
    a zero price the calculator does not return, it raises. *)
Lemma C4_division_by_zero_propagates :
  (home_odds no_home_price =? 0)%float = true
  /\ compute_arbitrage [no_home_price; bookmaker_B] = Raise ZeroDivisionError
  /\ ~ (exists r, compute_arbitrage [no_home_price; bookmaker_B] = Ok r).
Proof.
  split; [vm_compute; reflexivity | split; [vm_compute; reflexivity | ]].
  intros [r H]. vm_compute in H. discriminate H.
Qed.

(** C5.  Scenario A, where the code departs from the claim.  The
    calculator, given the two records in this order, returns the
    opportunity made of A's [home_odds] 2.10 and B's [away_odds] 2.50:
    their [arb_sum] is below 1, and [profit_percent] is
    [(1/arb_sum - 1) * 100], within 0.001 of 14.13.  The scan of [run]
    never gives it the two together: over the same two records it finds
    nothing.  So a run whose one request for odds is answered with the
    game as the two bookmakers quote it stores the two records, prints
    "No arbitrage opportunity found." and writes no file. *)
Theorem C5_scan_misses_scenario_A :
  (exists arb,
     compute_arbitrage [bookmaker_A; bookmaker_B] = Ok (Some arb)
     /\ Arb.sport arb = "nba"%string
     /\ Arb.home_team arb = "Lakers"%string
     /\ Arb.away_team arb = "Celtics"%string
     /\ Arb.home_bookmaker arb = "A"%string
     /\ Arb.home_odds arb = 2.10%float
     /\ Arb.away_bookmaker arb = "B"%string
     /\ Arb.away_odds arb = 2.50%float
     /\ (1 / 2.10 + 1 / 2.50 <? 1)%float = true
     /\ Arb.profit_percent arb = ((1 / (1 / 2.10 + 1 / 2.50) - 1) * 100)%float
     /\ (abs (Arb.profit_percent arb - 14.13) <? 0.001)%float = true)
  /\ arb_opportunities compute_arbitrage [bookmaker_A; bookmaker_B] = Ok []
  /\ bot_run (sports_reply [mkSport (Some "nba"%string)])
       (odds_reply [game_complete]) unbound_311 "KEY" (mkFetch None [])
     = (mkFetch (Some ["nba"%string]) [bookmaker_A; bookmaker_B],
        [Printed "Arbitrage bot is starting...";
         Printed "Fetching odds for sport: nba...";
         Printed "Computing arbitrage opportunities...";
         Printed "No arbitrage opportunity found."],
        Ok tt).
Proof.
  split; [ | split; vm_compute; reflexivity].
  exists (opportunity "nba" "Lakers" "Celtics" bookmaker_A bookmaker_B).
  repeat split; vm_compute; reflexivity.
Qed.

(** C6.  For every group, the two loops run the step once for every
    pair of indices [(i, j)] with [i < j], in order, and for no other:
    no [(i, i)], no [(j, i)].  The step of [(i, j)] gets record [i] as
    the home leg and record [j] as the away leg.  What it does with
    them is written out: it divides 1 by the [home_odds] of record [i]
    and by the [away_odds] of record [j], raising on a zero; when the
    sum of the two quotients is below 1 it appends one candidate, which
    has the bookmaker and [home_odds] of record [i], the bookmaker and
    [away_odds] of record [j] and the profit of that sum (raising when
    the sum is zero); otherwise it appends nothing.  Of the reverse
    assignment, the [away_odds] of record [i] and the [home_odds] of
    record [j], it reads nothing.  So A before B gives the opportunity
    of A's 2.10 and B's 2.50, B before A gives nothing although the
    same two legs are there, and B alone gives nothing although its own
    two legs qualify. *)
Theorem C6_one_candidate_per_pair
  (sport home away : string) (group : list OddsRecord) (acc : list Arb.t) :
  group_loop sport home away group acc
  = for_each (index_pairs (List.length group))
      (fun ij =>
         for_each (records_at group ij)
           (fun p => pair_step sport home away (fst p) (snd p)))
      acc
  /\ NoDup (index_pairs (List.length group))
  /\ (forall i j,
        In (i, j) (index_pairs (List.length group))
        <-> i < j < List.length group)
  /\ (forall i j,
        i < j < List.length group ->
        exists odd1 odd2,
          nth_error group i = Some odd1 /\ nth_error group j = Some odd2
          /\ records_at group (i, j) = [(odd1, odd2)])
  /\ (forall odd1 odd2 rows,
        pair_step sport home away odd1 odd2 rows
        = if (home_odds odd1 =? 0)%float then Raise ZeroDivisionError
          else if (away_odds odd2 =? 0)%float then Raise ZeroDivisionError
          else if (1 / home_odds odd1 + 1 / away_odds odd2 <? 1)%float
          then if (1 / home_odds odd1 + 1 / away_odds odd2 =? 0)%float
               then Raise ZeroDivisionError
               else Ok (rows
                        ++ [Arb.mk sport home away
                              (bookmaker odd1) (bookmaker odd2)
                              (home_odds odd1) (away_odds odd2)
                              ((1 / (1 / home_odds odd1 + 1 / away_odds odd2)
                                - 1) * 100)%float])
          else Ok rows)
  /\ (forall odd1 odd2 rows s1 h1 a1 s2 h2 a2 x y,
        pair_step sport home away odd1 odd2 rows
        = pair_step sport home away
            (mkOdds s1 h1 a1 (bookmaker odd1) (home_odds odd1) x)
            (mkOdds s2 h2 a2 (bookmaker odd2) y (away_odds odd2)) rows)
  /\ qualifies bookmaker_A bookmaker_B = true
  /\ (1 / home_odds bookmaker_A + 1 / away_odds bookmaker_B <? 1)%float = true
  /\ compute_arbitrage [bookmaker_A; bookmaker_B]
     = Ok (Some (Arb.mk "nba" "Lakers" "Celtics" "A" "B" 2.10 2.50
                   ((1 / (1 / 2.10 + 1 / 2.50) - 1) * 100)%float))
  /\ compute_arbitrage [bookmaker_B; bookmaker_A] = Ok None
  /\ (1 / home_odds bookmaker_B + 1 / away_odds bookmaker_B <? 1)%float = true
  /\ compute_arbitrage [bookmaker_B] = Ok None.
Proof.
  split; [ | split; [ | split; [ | split; [ | split; [ | split]]]]].
  - rewrite group_loop_pairs, <- candidates_pairs. unfold candidates.
    apply for_each_flat_map.
  - apply NoDup_index_pairs.
  - intros i j. apply In_index_pairs.
  - intros i j [Hij Hj]. unfold records_at. cbn [fst snd].
    destruct (nth_error group i) as [odd1 | ] eqn:E1.
    + destruct (nth_error group j) as [odd2 | ] eqn:E2.
      * exists odd1, odd2. auto.
      * apply nth_error_None in E2. lia.
    + apply nth_error_None in E1. lia.
  - intros odd1 odd2 rows. unfold pair_step, truediv.
    destruct (home_odds odd1 =? 0)%float; cbn [bind]; [reflexivity | ].
    destruct (away_odds odd2 =? 0)%float; cbn [bind]; [reflexivity | ].
    destruct (1 / home_odds odd1 + 1 / away_odds odd2 <? 1)%float;
      [ | reflexivity].
    destruct (1 / home_odds odd1 + 1 / away_odds odd2 =? 0)%float;
      reflexivity.
  - reflexivity.
  - repeat split; vm_compute; reflexivity.
Qed.

(** C7.  The grouping loop raises nothing and makes one group for each
    EventKey [(sport, home_team, away_team)] of the input.  The group of
    a key is the input filtered by equality with the key: it holds the
    records of that key and no other, each as often as the input has it
    and in the order of the input.  Hence two records of one group agree
    on [sport], [home_team] and [away_team]. *)
Theorem C7_groups_by_event_key (odds_list : list OddsRecord) :
  event_odds odds_list = Ok (grouped odds_list)
  /\ NoDup (map fst (grouped odds_list))
  /\ (forall key odd, has_key key odd = true <-> key_of odd = key)
  /\ (forall key group,
        In (key, group) (grouped odds_list) ->
        group = filter (has_key key) odds_list /\ group <> [])
  /\ (forall odd,
        In odd odds_list ->
        In (key_of odd, filter (has_key (key_of odd)) odds_list)
          (grouped odds_list))
  /\ (forall key group odd1 odd2,
        In (key, group) (grouped odds_list) ->
        In odd1 group -> In odd2 group ->
        sport odd1 = sport odd2 /\ home_team odd1 = home_team odd2
        /\ away_team odd1 = away_team odd2).
Proof.
  destruct (first_seen_spec odds_list [] (NoDup_nil _)) as [Hnd Hkeys].
  cbn [app] in Hnd, Hkeys.
  assert (Hhas : forall key odd, has_key key odd = true <-> key_of odd = key).
  { intros key odd. apply key_eqb_eq. }
  assert (Hgroup : forall key group,
             In (key, group) (grouped odds_list) ->
             In key (first_seen [] odds_list)
             /\ group = filter (has_key key) odds_list).
  { intros key group H. unfold grouped, groups_of in H.
    apply in_map_iff in H as (k & [= <- <-] & Hk). auto. }
  split; [apply event_odds_grouped | ].
  split.
  { unfold grouped, groups_of. rewrite map_map. cbn [fst].
    rewrite map_id. exact Hnd. }
  split; [exact Hhas | ].
  split.
  { intros key group H. apply Hgroup in H as [Hk ->]. split; [reflexivity | ].
    apply Hkeys in Hk as [[] | (odd & Hodd & Hkey)].
    intros Hnil.
    assert (Hin : In odd (filter (has_key key) odds_list)).
    { apply filter_In. split; [exact Hodd | now apply Hhas]. }
    rewrite Hnil in Hin. destruct Hin. }
  split.
  { intros odd Hodd. unfold grouped, groups_of.
    apply (in_map (fun key => (key, filter (has_key key) odds_list))).
    apply Hkeys. right. now exists odd. }
  intros key group odd1 odd2 H H1 H2. apply Hgroup in H as [_ ->].
  apply filter_In in H1 as [_ H1]. apply filter_In in H2 as [_ H2].
  apply Hhas in H1. apply Hhas in H2.
  rewrite <- H2 in H1. unfold key_of in H1. now inversion H1.
Qed.

(** C8.  For every pair of positive prices [h] (home leg) and [a] (away
    leg) the step raises nothing.  If [1/h + 1/a < 1.0] it appends one
    opportunity, whose [profit_percent] is [(1/(1/h + 1/a) - 1) * 100].
    If [1/h + 1/a >= 1.0] it appends none: the comparison is strict and
    has no tolerance, so [h = a = 2], whose sum is 1.0 exactly, gives
    none, and neither does [h = a = 1.50]. *)
Theorem C8_strict_threshold
  (sport home away : string) (odd1 odd2 : OddsRecord) (rows : list Arb.t) :
  positive_odds (home_odds odd1) = true ->
  positive_odds (away_odds odd2) = true ->
  ((1 / home_odds odd1 + 1 / away_odds odd2 <? 1)%float = true ->
   pair_step sport home away odd1 odd2 rows
   = Ok (rows ++
         [{| Arb.sport := sport;
             Arb.home_team := home;
             Arb.away_team := away;
             Arb.home_bookmaker := bookmaker odd1;
             Arb.away_bookmaker := bookmaker odd2;
             Arb.home_odds := home_odds odd1;
             Arb.away_odds := away_odds odd2;
             Arb.profit_percent :=
               ((1 / (1 / home_odds odd1 + 1 / away_odds odd2) - 1) * 100)%float
          |}]))
  /\ ((1 <=? 1 / home_odds odd1 + 1 / away_odds odd2)%float = true ->
      pair_step sport home away odd1 odd2 rows = Ok rows)
  /\ (home_odds odd1 = 2%float -> away_odds odd2 = 2%float ->
      (1 / home_odds odd1 + 1 / away_odds odd2 =? 1)%float = true
      /\ pair_step sport home away odd1 odd2 rows = Ok rows)
  /\ (home_odds odd1 = 1.50%float -> away_odds odd2 = 1.50%float ->
      pair_step sport home away odd1 odd2 rows = Ok rows).
Proof.
  intros Hh Ha.
  pose proof (pair_step_positive sport home away odd1 odd2 rows Hh Ha) as Hstep.
  unfold qualifies, arb_sum in Hstep.
  split; [ | split; [ | split]].
  - intros Hlt. rewrite Hlt in Hstep. exact Hstep.
  - intros Hge. apply leb_not_ltb in Hge. rewrite Hge in Hstep. exact Hstep.
  - intros H1 H2. rewrite H1, H2 in Hstep |- *.
    split; [vm_compute; reflexivity | exact Hstep].
  - intros H1 H2. rewrite H1, H2 in Hstep. exact Hstep.
Qed.

Lemma C8_scenarios_A_and_B :
  pair_step "nba" "Lakers" "Celtics" bookmaker_A bookmaker_B []
  = Ok [opportunity "nba" "Lakers" "Celtics" bookmaker_A bookmaker_B]
  /\ pair_step "nba" "Lakers" "Celtics" (evens "A") (evens "B") [] = Ok [].
Proof.
  split.
  - apply (C8_strict_threshold "nba" "Lakers" "Celtics"
             bookmaker_A bookmaker_B []); vm_compute; reflexivity.
  - apply (C8_strict_threshold "nba" "Lakers" "Celtics"
             (evens "A") (evens "B") []); vm_compute; reflexivity.
Defined.

(** C9.  On the empty list the calculator returns [None] at once, and on
    a list of one record it returns [None] as well, the record having no
    partner; neither raises.  The loop of [run] over no record or over
    one record ends with no opportunity. *)
Theorem C9_empty_and_single :
  compute_arbitrage [] = Ok None
  /\ (forall odd, compute_arbitrage [odd] = Ok None)
  /\ returned (compute_arbitrage []) = []
  /\ (forall odd, returned (compute_arbitrage [odd]) = [])
  /\ arb_opportunities compute_arbitrage [] = Ok []
  /\ (forall odd, arb_opportunities compute_arbitrage [odd] = Ok []).
Proof.
  repeat split.
  - exact compute_arbitrage_single.
  - intros odd. rewrite compute_arbitrage_single. reflexivity.
  - intros odd. apply arb_opportunities_none. exact compute_arbitrage_single.
Qed.

(** C10.  The limit of 1000 cuts the input: of 1500 records the loop of
    [run] hands the first 1000 to the calculator, in the order of the
    input, and the last 500 have no effect on what it collects.  The
    output is not cut: a calculator that answers every call gives 1000
    rows. *)
Theorem C10_limit_truncates_input
  (arb_calc : list OddsRecord -> result (option Arb.t))
  (odds_data : list OddsRecord) :
  List.length odds_data = 1500 ->
  exists first rest,
    odds_data = first ++ rest
    /\ List.length first = 1000 /\ List.length rest = 500
    /\ arb_opportunities arb_calc odds_data
       = for_each first (scan_step arb_calc) []
    /\ (forall others,
          arb_opportunities arb_calc (first ++ others)
          = arb_opportunities arb_calc odds_data)
    /\ (forall tag,
          arb_opportunities (fun args => Ok (Some (tag args))) odds_data
          = Ok (map (fun odd => tag [odd]) first)).
Proof.
  intros Hlen.
  exists (firstn 1000 odds_data), (skipn 1000 odds_data).
  assert (Hfirst : List.length (firstn 1000 odds_data) = 1000).
  { rewrite length_firstn. lia. }
  split; [symmetry; apply firstn_skipn | ].
  split; [exact Hfirst | ].
  split; [rewrite length_skipn; lia | ].
  split; [reflexivity | ].
  split.
  - intros others. unfold arb_opportunities. f_equal.
    rewrite firstn_app, Hfirst, Nat.sub_diag, firstn_O, app_nil_r.
    apply firstn_all2. rewrite Hfirst. apply le_n.
  - intros tag. unfold arb_opportunities.
    rewrite for_each_scan_some. reflexivity.
Qed.

Lemma C10_fifteen_hundred_records :
  exists first rest,
    repeat bookmaker_A 1500 = first ++ rest
    /\ List.length first = 1000 /\ List.length rest = 500
    /\ arb_opportunities compute_arbitrage (repeat bookmaker_A 1500)
       = for_each first (scan_step compute_arbitrage) []
    /\ (forall others,
          arb_opportunities compute_arbitrage (first ++ others)
          = arb_opportunities compute_arbitrage (repeat bookmaker_A 1500))
    /\ (forall tag,
          arb_opportunities (fun args => Ok (Some (tag args)))
            (repeat bookmaker_A 1500)
          = Ok (map (fun odd => tag [odd]) first)).
Proof.
  apply (C10_limit_truncates_input compute_arbitrage (repeat bookmaker_A 1500)).
  vm_compute. reflexivity.
Defined.

(** * More of the calculator *)

Lemma fold_left_concat {A B : Type} (f : A -> list B) (xs : list A) :
  forall acc : list B,
  fold_left (fun acc x => acc ++ f x) xs acc = acc ++ flat_map f xs.
Proof.
  induction xs as [ | x xs IH]; intros acc; cbn [fold_left flat_map].
  - now rewrite app_nil_r.
  - rewrite IH. now rewrite app_assoc.
Qed.

Lemma In_grouped (odds_list : list OddsRecord) (key : EventKey)
  (group : list OddsRecord) :
  In (key, group) (grouped odds_list) ->
  group = filter (has_key key) odds_list.
Proof.
  unfold grouped, groups_of. intros H.
  apply in_map_iff in H as (k & [= <- <-] & _). reflexivity.
Qed.

Lemma grouped_In (odds_list : list OddsRecord) (odd : OddsRecord) :
  In odd odds_list ->
  In (key_of odd, filter (has_key (key_of odd)) odds_list)
    (grouped odds_list).
Proof.
  intros Hodd. unfold grouped, groups_of.
  apply (in_map (fun key => (key, filter (has_key key) odds_list))).
  destruct (first_seen_spec odds_list [] (NoDup_nil _)) as [_ H].
  apply (H (key_of odd)). right. now exists odd.
Qed.

(** On valid records of any number of events, the loops collect the
    opportunities of the groups, one group after the other. *)
Lemma arbitrage_opportunities_valid (odds_list : list OddsRecord) :
  (forall odd, In odd odds_list -> valid_record odd = true) ->
  arbitrage_opportunities (grouped odds_list)
  = Ok (flat_map event_opportunities (grouped odds_list)).
Proof.
  intros Hvalid. unfold arbitrage_opportunities.
  change (flat_map event_opportunities (grouped odds_list))
    with ([] ++ flat_map event_opportunities (grouped odds_list)).
  rewrite <- (fold_left_concat event_opportunities (grouped odds_list) []).
  apply for_each_pure_in with (f := fun entry acc => acc ++ event_opportunities entry).
  intros [[[sport home] away] group] Hin acc. cbn [event_opportunities].
  apply group_loop_valid. intros odd Hodd.
  apply In_grouped in Hin. subst group.
  apply filter_In in Hodd as [Hodd _]. auto.
Qed.

(** A successful step appends nothing, or the opportunity of a pair that
    qualifies. *)
Lemma pair_step_ok (sport home away : string) (odd1 odd2 : OddsRecord)
  (acc acc' : list Arb.t) :
  pair_step sport home away odd1 odd2 acc = Ok acc' ->
  acc' = acc
  \/ (acc' = acc ++ [opportunity sport home away odd1 odd2]
      /\ qualifies odd1 odd2 = true).
Proof.
  unfold pair_step, qualifies, opportunity, profit_percent, arb_sum, truediv.
  destruct (home_odds odd1 =? 0)%float; cbn [bind]; [discriminate | ].
  destruct (away_odds odd2 =? 0)%float; cbn [bind]; [discriminate | ].
  destruct (1 / home_odds odd1 + 1 / away_odds odd2 <? 1)%float;
    [ | intros [= <-]; now left].
  destruct (1 / home_odds odd1 + 1 / away_odds odd2 =? 0)%float; cbn [bind];
    [discriminate | ].
  intros [= <-]. right. split; reflexivity.
Qed.

(** Why a step raises: a zero leg, or a zero sum of the reciprocals. *)
Lemma pair_step_raise_cause (sport home away : string) (odd1 odd2 : OddsRecord)
  (acc : list Arb.t) (e : exn) :
  pair_step sport home away odd1 odd2 acc = Raise e ->
  (home_odds odd1 =? 0)%float = true
  \/ (away_odds odd2 =? 0)%float = true
  \/ (arb_sum (home_odds odd1) (away_odds odd2) =? 0)%float = true.
Proof.
  unfold pair_step, arb_sum, truediv.
  destruct (home_odds odd1 =? 0)%float; cbn [bind]; [now left | ].
  destruct (away_odds odd2 =? 0)%float; cbn [bind]; [now right; left | ].
  destruct (1 / home_odds odd1 + 1 / away_odds odd2 <? 1)%float;
    [ | discriminate].
  destruct (1 / home_odds odd1 + 1 / away_odds odd2 =? 0)%float; cbn [bind];
    [now right; right | discriminate].
Qed.

(** What holds of the state before a loop and is kept by every step that
    returns, holds after the loop. *)
Lemma for_each_invariant {A S : Type} (I : S -> Prop) (xs : list A)
  (body : A -> S -> result S) :
  (forall x s s', In x xs -> I s -> body x s = Ok s' -> I s') ->
  forall s s', I s -> for_each xs body s = Ok s' -> I s'.
Proof.
  induction xs as [ | x xs IH]; intros Hstep s s' Hs; cbn [for_each].
  - intros [= <-]. exact Hs.
  - destruct (body x s) as [s1 | e] eqn:E; cbn [bind]; [ | discriminate].
    apply IH.
    + intros y t t' Hy. apply Hstep. now right.
    + exact (Hstep x s s1 (or_introl eq_refl) Hs E).
Qed.

(** A loop that raises has a step that raises the same. *)
Lemma for_each_raise_origin {A S : Type} (xs : list A)
  (body : A -> S -> result S) :
  forall s e, for_each xs body s = Raise e ->
  exists x s0, In x xs /\ body x s0 = Raise e.
Proof.
  induction xs as [ | x xs IH]; intros s e; cbn [for_each]; [discriminate | ].
  destruct (body x s) as [s1 | e1] eqn:E; cbn [bind].
  - intros H. destruct (IH _ _ H) as (y & s0 & Hy & Hraise).
    exists y, s0. split; [now right | exact Hraise].
  - intros [= <-]. exists x, s. split; [now left | exact E].
Qed.

Lemma pairs_inv (group : list OddsRecord) (odd1 odd2 : OddsRecord) :
  In (odd1, odd2) (pairs group) ->
  exists g1 g2 g3, group = g1 ++ odd1 :: g2 ++ odd2 :: g3.
Proof.
  induction group as [ | x r IH]; cbn [pairs]; [intros [] | ].
  intros H. apply in_app_or in H as [H | H].
  - apply in_map_iff in H as (y & [= <- <-] & Hy).
    apply in_split in Hy as (g2 & g3 & ->). now exists [], g2, g3.
  - destruct (IH H) as (g1 & g2 & g3 & ->). now exists (x :: g1), g2, g3.
Qed.

Lemma filter_split {A : Type} (f : A -> bool) (l : list A) :
  forall (a b : list A) (x : A),
  filter f l = a ++ x :: b ->
  exists l1 l2,
    l = l1 ++ x :: l2 /\ filter f l1 = a /\ filter f l2 = b /\ f x = true.
Proof.
  induction l as [ | y l IH]; intros a b x; cbn [filter].
  - destruct a; discriminate.
  - destruct (f y) eqn:E.
    + destruct a as [ | a0 a]; cbn [app]; intros [= -> H].
      * exists [], l. cbn [filter app]. auto.
      * destruct (IH _ _ _ H) as (l1 & l2 & -> & H1 & H2 & Hx).
        exists (a0 :: l1), l2. cbn [filter app]. rewrite E, H1. auto.
    + intros H. destruct (IH _ _ _ H) as (l1 & l2 & -> & H1 & H2 & Hx).
      exists (y :: l1), l2. cbn [filter app]. rewrite E. auto.
Qed.

(** A pair of a group is a pair of records of the input, the first
    before the second, both of the key of the group. *)
Lemma pairs_of_group (odds_list : list OddsRecord) (key : EventKey)
  (odd1 odd2 : OddsRecord) :
  In (odd1, odd2) (pairs (filter (has_key key) odds_list)) ->
  key_of odd1 = key /\ key_of odd2 = key
  /\ exists before between after,
       odds_list = before ++ odd1 :: between ++ odd2 :: after.
Proof.
  intros H. apply pairs_inv in H as (g1 & g2 & g3 & H).
  apply filter_split in H as (l1 & l' & -> & _ & H & H1).
  apply filter_split in H as (l2 & l3 & -> & _ & _ & H2).
  apply key_eqb_eq in H1. apply key_eqb_eq in H2.
  split; [exact H1 | split; [exact H2 | ]]. now exists l1, l2, l3.
Qed.

Lemma group_of_pair (before between after : list OddsRecord)
  (odd1 odd2 : OddsRecord) :
  key_of odd1 = key_of odd2 ->
  In (odd1, odd2)
    (pairs (filter (has_key (key_of odd1))
              (before ++ odd1 :: between ++ odd2 :: after))).
Proof.
  intros Hkey. rewrite filter_app. cbn [filter].
  change (has_key (key_of odd1) odd1) with (key_eqb (key_of odd1) (key_of odd1)).
  rewrite key_eqb_refl, filter_app. cbn [filter].
  change (has_key (key_of odd1) odd2) with (key_eqb (key_of odd2) (key_of odd1)).
  rewrite <- Hkey, key_eqb_refl. apply pairs_split.
Qed.

(** X1.  On valid records of any number of events, the calculator
    collects the opportunities event by event, the events in the order
    in which the input first names them, and within an event the
    qualifying pairs in their order; it returns the first of all. *)
Theorem X1_events_in_first_seen_order (odds_list : list OddsRecord) :
  (forall odd, In odd odds_list -> valid_record odd = true) ->
  bind (event_odds odds_list) arbitrage_opportunities
  = Ok (flat_map event_opportunities (grouped odds_list))
  /\ compute_arbitrage odds_list
     = Ok (hd_error (flat_map event_opportunities (grouped odds_list))).
Proof.
  intros Hvalid. split.
  - rewrite event_odds_grouped. cbn [bind].
    apply arbitrage_opportunities_valid. exact Hvalid.
  - rewrite compute_arbitrage_eq, arbitrage_opportunities_valid by exact Hvalid.
    reflexivity.
Qed.

Lemma X1_two_events :
  map fst (grouped [heat_A; bookmaker_A; heat_B; bookmaker_B])
  = [("nba", "Heat", "Bulls"); ("nba", "Lakers", "Celtics")]%string
  /\ flat_map event_opportunities
       (grouped [heat_A; bookmaker_A; heat_B; bookmaker_B])
     = [opportunity "nba" "Heat" "Bulls" heat_A heat_B;
        opportunity "nba" "Lakers" "Celtics" bookmaker_A bookmaker_B]
  /\ bind (event_odds [heat_A; bookmaker_A; heat_B; bookmaker_B])
       arbitrage_opportunities
     = Ok (flat_map event_opportunities
             (grouped [heat_A; bookmaker_A; heat_B; bookmaker_B]))
  /\ compute_arbitrage [heat_A; bookmaker_A; heat_B; bookmaker_B]
     = Ok (hd_error
             (flat_map event_opportunities
                (grouped [heat_A; bookmaker_A; heat_B; bookmaker_B]))).
Proof.
  split; [vm_compute; reflexivity | split; [vm_compute; reflexivity | ]].
  apply (X1_events_in_first_seen_order
           [heat_A; bookmaker_A; heat_B; bookmaker_B]).
  intros odd [<- | [<- | [<- | [<- | []]]]]; vm_compute; reflexivity.
Defined.

(** X2.  Whatever the records, an opportunity that the calculator
    returns is made of two records of the input, the home leg from the
    earlier and the away leg from the later; the two are of one event,
    whose sport and teams the opportunity carries, and the sum of the
    reciprocals of the two prices is strictly below 1. *)
Theorem X2_returned_opportunity_is_sound
  (odds_list : list OddsRecord) (arb : Arb.t) :
  compute_arbitrage odds_list = Ok (Some arb) ->
  exists before odd1 between odd2 after,
    odds_list = before ++ odd1 :: between ++ odd2 :: after
    /\ key_of odd1 = key_of odd2
    /\ arb = opportunity (sport odd1) (home_team odd1) (away_team odd1)
               odd1 odd2
    /\ (1 / home_odds odd1 + 1 / away_odds odd2 <? 1)%float = true.
Proof.
  set (sound := fun arb : Arb.t =>
    exists before odd1 between odd2 after,
      odds_list = before ++ odd1 :: between ++ odd2 :: after
      /\ key_of odd1 = key_of odd2
      /\ arb = opportunity (sport odd1) (home_team odd1) (away_team odd1)
                 odd1 odd2
      /\ (1 / home_odds odd1 + 1 / away_odds odd2 <? 1)%float = true).
  rewrite compute_arbitrage_eq.
  destruct (arbitrage_opportunities (grouped odds_list)) as [opps | e] eqn:E;
    cbn [bind]; [ | discriminate].
  assert (Hall : Forall sound opps).
  { revert E. unfold arbitrage_opportunities.
    apply for_each_invariant with (I := Forall sound); [ | constructor].
    intros [[[sport home] away] group] acc acc' Hin Hacc.
    rewrite group_loop_pairs. revert Hacc.
    apply for_each_invariant.
    intros [odd1 odd2] rows rows' Hpair Hrows Hstep. cbn [fst snd] in Hstep.
    apply pair_step_ok in Hstep as [-> | [-> Hq]]; [exact Hrows | ].
    apply Forall_app. split; [exact Hrows | ]. constructor; [ | constructor].
    apply In_grouped in Hin. subst group.
    apply pairs_of_group in Hpair as (H1 & H2 & l1 & l2 & l3 & Hl).
    exists l1, odd1, l2, odd2, l3.
    split; [exact Hl | split; [congruence | split; [ | exact Hq]]].
    unfold key_of in H1. injection H1 as <- <- <-. reflexivity. }
  destruct opps as [ | first rest]; [discriminate | ].
  intros [= <-]. now inversion Hall.
Qed.

Lemma X2_scenario_A :
  exists before odd1 between odd2 after,
    [bookmaker_A; bookmaker_B] = before ++ odd1 :: between ++ odd2 :: after
    /\ key_of odd1 = key_of odd2
    /\ opportunity "nba" "Lakers" "Celtics" bookmaker_A bookmaker_B
       = opportunity (sport odd1) (home_team odd1) (away_team odd1) odd1 odd2
    /\ (1 / home_odds odd1 + 1 / away_odds odd2 <? 1)%float = true.
Proof.
  apply (X2_returned_opportunity_is_sound [bookmaker_A; bookmaker_B]).
  vm_compute. reflexivity.
Defined.

Lemma flat_map_nil {A B : Type} (f : A -> list B) (l : list A) :
  (forall x, In x l -> f x = []) -> flat_map f l = [].
Proof.
  induction l as [ | x l IH]; intros H; [reflexivity | ].
  cbn [flat_map]. rewrite (H x (or_introl eq_refl)). apply IH.
  intros y Hy. apply H. now right.
Qed.

Lemma filter_nil {A : Type} (f : A -> bool) (l : list A) :
  (forall x, In x l -> f x = false) -> filter f l = [].
Proof.
  induction l as [ | x l IH]; intros H; [reflexivity | ].
  cbn [filter]. rewrite (H x (or_introl eq_refl)). apply IH.
  intros y Hy. apply H. now right.
Qed.

(** X3.  On valid records the calculator returns [None] exactly when no
    record together with a later record of the same event qualifies. *)
Theorem X3_none_iff_no_qualifying_pair (odds_list : list OddsRecord) :
  (forall odd, In odd odds_list -> valid_record odd = true) ->
  compute_arbitrage odds_list = Ok None
  <-> (forall before odd1 between odd2 after,
         odds_list = before ++ odd1 :: between ++ odd2 :: after ->
         key_of odd1 = key_of odd2 ->
         qualifies odd1 odd2 = false).
Proof.
  intros Hvalid.
  rewrite compute_arbitrage_eq, arbitrage_opportunities_valid by exact Hvalid.
  cbn [bind]. split.
  - intros Hnone before odd1 between odd2 after Hl Hkey.
    destruct (flat_map event_opportunities (grouped odds_list)) as [ | x r] eqn:E;
      [ | discriminate].
    destruct (qualifies odd1 odd2) eqn:Hq; [exfalso | reflexivity].
    assert (Hin : In (opportunity (sport odd1) (home_team odd1) (away_team odd1)
                        odd1 odd2)
                    (flat_map event_opportunities (grouped odds_list))).
    { apply in_flat_map.
      exists (key_of odd1, filter (has_key (key_of odd1)) odds_list). split.
      - apply grouped_In. rewrite Hl. apply in_or_app. right. now left.
      - unfold key_of at 1. cbn [event_opportunities].
        unfold qualifying_opportunities. rewrite candidates_pairs.
        apply (in_map (fun p => opportunity (sport odd1) (home_team odd1)
                                  (away_team odd1) (fst p) (snd p))
                 _ (odd1, odd2)).
        apply filter_In. split; [ | exact Hq].
        rewrite Hl. apply group_of_pair. exact Hkey. }
    rewrite E in Hin. destruct Hin.
  - intros Hno. rewrite flat_map_nil; [reflexivity | ].
    intros [[[sport home] away] group] Hin. cbn [event_opportunities].
    unfold qualifying_opportunities. rewrite candidates_pairs.
    rewrite filter_nil; [reflexivity | ].
    intros [odd1 odd2] Hpair. cbn [fst snd].
    apply In_grouped in Hin. subst group.
    apply pairs_of_group in Hpair as (H1 & H2 & l1 & l2 & l3 & Hl).
    apply (Hno l1 odd1 l2 odd2 l3 Hl). congruence.
Qed.

Lemma X3_evens :
  compute_arbitrage [evens "A"; evens "B"] = Ok None
  <-> (forall before odd1 between odd2 after,
         [evens "A"; evens "B"] = before ++ odd1 :: between ++ odd2 :: after ->
         key_of odd1 = key_of odd2 ->
         qualifies odd1 odd2 = false).
Proof.
  apply (X3_none_iff_no_qualifying_pair [evens "A"; evens "B"]).
  intros odd [<- | [<- | []]]; vm_compute; reflexivity.
Defined.

(** X4.  On records whose names are strings and whose prices are
    floats, the lookups in [event_odds] never fail: the calculator
    raises no [KeyError].  What it raises is the [ZeroDivisionError] of
    a division, and it raises only when a record and a later record of
    the same event have a zero home price in the first, a zero away
    price in the second, or reciprocals that add up to zero. *)
Theorem X4_raises_only_on_a_zero_divisor
  (odds_list : list OddsRecord) (e : exn) :
  compute_arbitrage odds_list = Raise e ->
  e = ZeroDivisionError
  /\ exists before odd1 between odd2 after,
       odds_list = before ++ odd1 :: between ++ odd2 :: after
       /\ key_of odd1 = key_of odd2
       /\ ((home_odds odd1 =? 0)%float = true
           \/ (away_odds odd2 =? 0)%float = true
           \/ (1 / home_odds odd1 + 1 / away_odds odd2 =? 0)%float = true).
Proof.
  rewrite compute_arbitrage_eq.
  destruct (arbitrage_opportunities (grouped odds_list)) as [opps | e'] eqn:E;
    cbn [bind]; [discriminate | ].
  intros [= ->]. split; [exact (arbitrage_opportunities_raises _ _ E) | ].
  unfold arbitrage_opportunities in E.
  apply for_each_raise_origin in E
    as ([[[sport home] away] group] & acc & Hin & E).
  rewrite group_loop_pairs in E.
  apply for_each_raise_origin in E as ([odd1 odd2] & rows & Hpair & E).
  cbn [fst snd] in E. apply pair_step_raise_cause in E.
  apply In_grouped in Hin. subst group.
  apply pairs_of_group in Hpair as (H1 & H2 & l1 & l2 & l3 & Hl).
  exists l1, odd1, l2, odd2, l3.
  split; [exact Hl | split; [congruence | exact E]].
Qed.

Lemma X4_missing_home_price :
  ZeroDivisionError = ZeroDivisionError
  /\ exists before odd1 between odd2 after,
       [no_home_price; bookmaker_B] = before ++ odd1 :: between ++ odd2 :: after
       /\ key_of odd1 = key_of odd2
       /\ ((home_odds odd1 =? 0)%float = true
           \/ (away_odds odd2 =? 0)%float = true
           \/ (1 / home_odds odd1 + 1 / away_odds odd2 =? 0)%float = true).
Proof.
  apply (X4_raises_only_on_a_zero_divisor [no_home_price; bookmaker_B]).
  vm_compute. reflexivity.
Defined.

(** X5.  The calculator does not look at who quotes: two records of one
    bookmaker for one event are a pair like any other, and when the
    home price of a record with its own away price qualifies, the
    record twice gives an opportunity with the same bookmaker on both
    legs. *)
Theorem X5_one_bookmaker_on_both_legs (odd : OddsRecord) :
  valid_record odd = true ->
  qualifies odd odd = true ->
  compute_arbitrage [odd; odd]
  = Ok (Some (opportunity (sport odd) (home_team odd) (away_team odd) odd odd))
  /\ Arb.home_bookmaker
       (opportunity (sport odd) (home_team odd) (away_team odd) odd odd)
     = Arb.away_bookmaker
         (opportunity (sport odd) (home_team odd) (away_team odd) odd odd).
Proof.
  intros Hvalid Hq. split; [ | reflexivity].
  rewrite compute_arbitrage_eq.
  rewrite (grouped_single (key_of odd) [odd; odd]);
    [ | discriminate | intros r [<- | [<- | []]]; reflexivity].
  unfold arbitrage_opportunities, key_of. cbn [for_each].
  rewrite group_loop_valid by (intros r [<- | [<- | []]]; exact Hvalid).
  unfold qualifying_opportunities. rewrite candidates_pairs.
  cbn [pairs map app filter fst snd]. rewrite Hq. reflexivity.
Qed.

Lemma X5_bookmaker_B_twice :
  compute_arbitrage [bookmaker_B; bookmaker_B]
  = Ok (Some (opportunity (sport bookmaker_B) (home_team bookmaker_B)
                (away_team bookmaker_B) bookmaker_B bookmaker_B))
  /\ Arb.home_bookmaker
       (opportunity (sport bookmaker_B) (home_team bookmaker_B)
          (away_team bookmaker_B) bookmaker_B bookmaker_B)
     = Arb.away_bookmaker
         (opportunity (sport bookmaker_B) (home_team bookmaker_B)
            (away_team bookmaker_B) bookmaker_B bookmaker_B).
Proof.
  apply (X5_one_bookmaker_on_both_legs bookmaker_B); vm_compute; reflexivity.
Defined.

(** * The fetchers *)

(** ** Loops inside a [try] *)

Lemma try_each_ext {A S E : Type} (xs : list A)
  (b1 b2 : A -> S -> S * option E) :
  (forall x s, b1 x s = b2 x s) ->
  forall s, try_each xs b1 s = try_each xs b2 s.
Proof.
  intros H. induction xs as [ | x xs IH]; intros s; cbn [try_each];
    [reflexivity | ].
  rewrite H. destruct (b2 x s) as [s' [e | ]]; [reflexivity | apply IH].
Qed.

Lemma try_each_app {A S E : Type} (xs ys : list A)
  (body : A -> S -> S * option E) :
  forall s,
  try_each (xs ++ ys) body s
  = match try_each xs body s with
    | (s', None) => try_each ys body s'
    | (s', Some e) => (s', Some e)
    end.
Proof.
  induction xs as [ | x xs IH]; intros s; cbn [app try_each]; [reflexivity | ].
  destruct (body x s) as [s' [e | ]]; [reflexivity | apply IH].
Qed.

Lemma try_each_flat_map {A B S E : Type} (f : A -> list B) (xs : list A)
  (body : B -> S -> S * option E) :
  forall s,
  try_each (flat_map f xs) body s
  = try_each xs (fun x => try_each (f x) body) s.
Proof.
  induction xs as [ | x xs IH]; intros s; cbn [flat_map try_each];
    [reflexivity | ].
  rewrite try_each_app.
  destruct (try_each (f x) body s) as [s' [e | ]]; [reflexivity | apply IH].
Qed.

(** ** The loops of [fetch_odds] as one loop over the h2h markets *)

Lemma market_step_quotes (sport home_team away_team bookmaker : string)
  (market : Market) (state : list OddsRecord * prices) :
  market_step sport home_team away_team bookmaker market state
  = try_each (market_quotes home_team away_team bookmaker market)
      (quote_step sport) state.
Proof.
  unfold market_quotes, quote_step, market_step.
  destruct (get_is (market_key market) "h2h") eqn:E; [ | reflexivity].
  cbn [try_each quote_home_team quote_away_team quote_bookmaker quote_outcomes
       market_key market_outcomes get].
  change (get_is (Some "h2h"%string) "h2h") with true. cbv iota.
  destruct (fold_left _ (get (market_outcomes market) []) (snd state))
    as [[h | ] [a | ]]; reflexivity.
Qed.

Lemma game_loop_quotes (sport : string) (data : list Game)
  (state : list OddsRecord * prices) :
  try_each data (game_step sport) state
  = try_each (quotes data) (quote_step sport) state.
Proof.
  unfold quotes. rewrite try_each_flat_map.
  apply try_each_ext. intros game s.
  unfold game_step, game_quotes. rewrite try_each_flat_map.
  apply try_each_ext. intros book s'.
  unfold bookmaker_step, bookmaker_quotes. rewrite try_each_flat_map.
  apply try_each_ext. intros market s''. apply market_step_quotes.
Qed.

(** ** One h2h market *)

Lemma last_error_snoc {A : Type} (l : list A) (x : A) :
  last_error (l ++ [x]) = Some x.
Proof. unfold last_error. rewrite rev_app_distr. reflexivity. Qed.

(** After the loop over the outcomes each variable holds the price that
    the market gives, or what it held before when the market gives
    none. *)
Lemma fold_outcome_step (q : Quote) (outcomes : list Outcome) (vars : prices) :
  fold_left
    (fun vars outcome =>
       outcome_step (quote_home_team q) (quote_away_team q) outcome vars)
    outcomes vars
  = (or_else (option_map price_of (last_error (filter (for_home q) outcomes)))
       (fst vars),
     or_else (option_map price_of (last_error (filter (for_away q) outcomes)))
       (snd vars)).
Proof.
  induction outcomes as [ | o outcomes IH] using rev_ind.
  - destruct vars. reflexivity.
  - rewrite fold_left_app, IH, !filter_app. cbn [fold_left filter].
    change (for_home q o)
      with (get_is (outcome_name o) (quote_home_team q)).
    change (for_away q o)
      with (negb (get_is (outcome_name o) (quote_home_team q))
            && get_is (outcome_name o) (quote_away_team q)).
    unfold outcome_step. cbn [fst snd].
    destruct (get_is (outcome_name o) (quote_home_team q)); cbn [negb andb].
    + rewrite last_error_snoc, app_nil_r. reflexivity.
    + destruct (get_is (outcome_name o) (quote_away_team q)).
      * rewrite last_error_snoc, app_nil_r. reflexivity.
      * rewrite !app_nil_r. reflexivity.
Qed.

(** The step on an h2h market: a record when both variables are bound
    after the outcomes, [UnboundLocalError] on the first that is not. *)
Lemma quote_step_eq (sport : string) (q : Quote) (odds : list OddsRecord)
  (vars : prices) :
  quote_step sport q (odds, vars)
  = match or_else (home_price q) (fst vars),
          or_else (away_price q) (snd vars) with
    | Some h, Some a =>
        ((odds ++ [mkOdds sport (quote_home_team q) (quote_away_team q)
                     (quote_bookmaker q) h a],
          (Some h, Some a)), None)
    | None, a => ((odds, (None, a)), Some "home_odds"%string)
    | Some h, None => ((odds, (Some h, None)), Some "away_odds"%string)
    end.
Proof.
  unfold quote_step, market_step.
  change (get_is (market_key (mkMarket (Some "h2h"%string)
                                (Some (quote_outcomes q)))) "h2h") with true.
  cbv iota. cbn [market_outcomes get fst snd].
  rewrite fold_outcome_step. fold (home_price q). fold (away_price q).
  destruct (or_else (home_price q) (fst vars)) as [h | ];
    destruct (or_else (away_price q) (snd vars)) as [a | ]; reflexivity.
Qed.

Lemma quote_step_complete (sport : string) (q : Quote)
  (odds : list OddsRecord) (vars : prices) :
  complete q = true ->
  quote_step sport q (odds, vars)
  = ((odds ++ [quote_record sport q], (home_price q, away_price q)), None).
Proof.
  unfold complete, quote_record. rewrite quote_step_eq.
  destruct (home_price q) as [h | ]; [ | discriminate].
  destruct (away_price q) as [a | ]; [ | discriminate].
  reflexivity.
Qed.

(** Once both variables are bound the step cannot raise: it appends a
    record, with the old price where the market gives none. *)
Lemma quote_step_bound (sport : string) (q : Quote) (odds : list OddsRecord)
  (h a : float) :
  quote_step sport q (odds, (Some h, Some a))
  = ((odds ++ [mkOdds sport (quote_home_team q) (quote_away_team q)
                 (quote_bookmaker q) (get (home_price q) h)
                 (get (away_price q) a)],
      (Some (get (home_price q) h), Some (get (away_price q) a))), None).
Proof.
  rewrite quote_step_eq. cbn [fst snd].
  destruct (home_price q); destruct (away_price q); reflexivity.
Qed.

(** ** All the h2h markets *)

Lemma quotes_complete (sport : string) (qs : list Quote) :
  forallb complete qs = true ->
  forall odds vars,
  exists vars',
    try_each qs (quote_step sport) (odds, vars)
    = ((odds ++ map (quote_record sport) qs, vars'), None).
Proof.
  induction qs as [ | q qs IH]; intros Hall odds vars; cbn [try_each map].
  - exists vars. now rewrite app_nil_r.
  - cbn [forallb] in Hall. apply andb_true_iff in Hall as [Hq Hall].
    rewrite (quote_step_complete sport q odds vars Hq). cbv beta iota.
    destruct (IH Hall (odds ++ [quote_record sport q])
                (home_price q, away_price q)) as [vars' Heq].
    exists vars'. rewrite <- app_assoc in Heq. exact Heq.
Qed.

Lemma quotes_bound (sport : string) (qs : list Quote) :
  forall odds h a,
  exists new vars',
    try_each qs (quote_step sport) (odds, (Some h, Some a))
    = ((odds ++ new, vars'), None)
    /\ map heading new = map (fun q => heading (quote_record sport q)) qs.
Proof.
  induction qs as [ | q qs IH]; intros odds h a; cbn [try_each map].
  - exists [], (Some h, Some a). now rewrite app_nil_r.
  - rewrite quote_step_bound. cbv beta iota.
    destruct (IH (odds ++ [mkOdds sport (quote_home_team q) (quote_away_team q)
                             (quote_bookmaker q) (get (home_price q) h)
                             (get (away_price q) a)])
                (get (home_price q) h) (get (away_price q) a))
      as (new & vars' & Heq & Hnew).
    exists (mkOdds sport (quote_home_team q) (quote_away_team q)
              (quote_bookmaker q) (get (home_price q) h)
              (get (away_price q) a) :: new), vars'.
    split; [rewrite <- app_assoc in Heq; exact Heq | ].
    cbn [map]. now rewrite Hnew.
Qed.

(** Whatever the markets, the loop only appends, and what it appends is
    of the sport that was asked for. *)
Lemma quotes_append (league : string) (qs : list Quote) :
  forall odds vars,
  exists new vars' e,
    try_each qs (quote_step league) (odds, vars) = ((odds ++ new, vars'), e)
    /\ Forall (fun odd => sport odd = league) new
    /\ List.length new <= List.length qs.
Proof.
  induction qs as [ | q qs IH]; intros odds vars; cbn [try_each].
  - exists [], vars, None. rewrite app_nil_r. repeat split; auto.
  - rewrite quote_step_eq.
    destruct (or_else (home_price q) (fst vars)) as [h | ].
    + destruct (or_else (away_price q) (snd vars)) as [a | ].
      * destruct (IH (odds ++ [mkOdds league (quote_home_team q)
                                 (quote_away_team q) (quote_bookmaker q) h a])
                    (Some h, Some a)) as (new & vars' & e & Heq & Hnew & Hlen).
        exists (mkOdds league (quote_home_team q) (quote_away_team q)
                  (quote_bookmaker q) h a :: new), vars', e.
        split; [rewrite <- app_assoc in Heq; exact Heq | ].
        split; [constructor; [reflexivity | exact Hnew] | cbn [List.length]; lia].
      * exists [], (Some h, None), (Some "away_odds"%string).
        rewrite app_nil_r. repeat split; auto. cbn [List.length]. lia.
    + exists [], (None, or_else (away_price q) (snd vars)),
        (Some "home_odds"%string).
      rewrite app_nil_r. repeat split; auto. cbn [List.length]. lia.
Qed.

(** ** [fetch_odds] *)

(** Rewrites the loop of the goal with an equation that holds of it up
    to the unfolding of [prices]. *)
Ltac rewrite_try_each H :=
  match type of H with
  | _ = ?rhs =>
      match goal with
      | |- context [@try_each ?A ?S ?E ?xs ?body ?state] =>
          let H' := fresh in
          assert (H' : @try_each A S E xs body state = rhs) by exact H;
          rewrite H'; clear H'
      end
  end.

Lemma same_state (self : Fetch) :
  mkFetch (_cached_sports self) (odds_data self) = self.
Proof. destruct self. reflexivity. Qed.

(** On a response of status 200 with a body, [fetch_odds] is the loop
    over the h2h markets of the body. *)
Lemma fetch_odds_200
  (requests_get_odds : string -> raised + response (list Game))
  (unbound_message : string -> string) (api_key league : string)
  (self : Fetch) (data : list Game) :
  requests_get_odds (odds_url api_key league)
  = inr (mkResponse 200 (inr data)) ->
  fetch_odds requests_get_odds unbound_message api_key league self
  = match try_each (quotes data) (quote_step league)
            (odds_data self, (None, None)) with
    | ((odds, _), None) => (mkFetch (_cached_sports self) odds, [])
    | ((odds, _), Some variable) =>
        (mkFetch (_cached_sports self) odds,
         [request_error_odds league
            (OtherException (unbound_message variable))])
    end.
Proof.
  intros Hreply. unfold fetch_odds. rewrite Hreply.
  cbn [status_code json]. change (negb (200 =? 200)%Z) with false. cbv iota.
  rewrite game_loop_quotes. reflexivity.
Qed.

(** X6.  Whatever the network answers, [fetch_odds] only appends to
    [odds_data] and leaves [_cached_sports] alone; every record that it
    appends carries the sport that was asked for; it prints one line at
    most.  When the request fails, or the status is not 200, or the body
    is no JSON, it appends nothing and prints one line. *)
Theorem X6_fetch_odds_only_appends
  (requests_get_odds : string -> raised + response (list Game))
  (unbound_message : string -> string) (api_key league : string)
  (self : Fetch) :
  exists new,
    fst (fetch_odds requests_get_odds unbound_message api_key league self)
    = mkFetch (_cached_sports self) (odds_data self ++ new)
    /\ Forall (fun odd => sport odd = league) new
    /\ List.length
         (snd (fetch_odds requests_get_odds unbound_message api_key league self))
       <= 1
    /\ (failed (requests_get_odds (odds_url api_key league)) = true ->
        new = []
        /\ List.length
             (snd (fetch_odds requests_get_odds unbound_message api_key
                     league self)) = 1).
Proof.
  assert (Hself : self = mkFetch (_cached_sports self) (odds_data self ++ [])).
  { rewrite app_nil_r. symmetry. apply same_state. }
  unfold fetch_odds, failed.
  destruct (requests_get_odds (odds_url api_key league)) as [e | r].
  { exists []. cbn [fst snd List.length]. auto. }
  destruct (status_code r =? 200)%Z; cbn [negb orb].
  2:{ exists []. cbn [fst snd List.length]. auto. }
  destruct (json r) as [e | data].
  { exists []. cbn [fst snd List.length]. auto. }
  rewrite game_loop_quotes.
  destruct (quotes_append league (quotes data) (odds_data self) (None, None))
    as (new & vars' & e & Heq & Hnew & _).
  rewrite_try_each Heq. exists new.
  destruct e as [variable | ]; cbn [fst snd List.length];
    (split; [reflexivity | split; [exact Hnew | split; [lia | discriminate]]]).
Qed.

(** X7.  When every h2h market of the payload names both teams among
    its outcomes, [fetch_odds] prints nothing and appends one record for
    each h2h market, in the order of the payload: the record has the
    teams of the game ("N/A" for an absent one), the key of the
    bookmaker, and for each team the price of the last outcome of the
    market with the name of the team, [0.0] if that outcome has no
    price.  Markets of another kind give no record. *)
Theorem X7_complete_markets_give_their_own_prices
  (requests_get_odds : string -> raised + response (list Game))
  (unbound_message : string -> string) (api_key league : string)
  (self : Fetch) (data : list Game) :
  requests_get_odds (odds_url api_key league)
  = inr (mkResponse 200 (inr data)) ->
  forallb complete (quotes data) = true ->
  fetch_odds requests_get_odds unbound_message api_key league self
  = (mkFetch (_cached_sports self)
       (odds_data self ++ map (quote_record league) (quotes data)),
     []).
Proof.
  intros Hreply Hall.
  rewrite (fetch_odds_200 _ _ _ _ _ data Hreply).
  destruct (quotes_complete league (quotes data) Hall (odds_data self)
              (None, None)) as [vars' Heq].
  rewrite_try_each Heq. reflexivity.
Qed.

Lemma X7_two_bookmakers :
  fetch_odds (odds_reply [game_complete]) unbound_311 "KEY" "nba"
    (mkFetch None [])
  = (mkFetch None
       ([] ++ map (quote_record "nba") (quotes [game_complete])),
     []).
Proof.
  apply (X7_complete_markets_give_their_own_prices
           (odds_reply [game_complete]) unbound_311 "KEY" "nba"
           (mkFetch None []) [game_complete]);
    vm_compute; reflexivity.
Defined.

(** X8.  When the first h2h market of the payload is complete,
    [fetch_odds] cannot fail on the rest: it prints nothing and appends
    one record for each h2h market, complete or not, with the teams and
    the bookmaker of that market. *)
Theorem X8_one_record_per_market_after_a_complete_first
  (requests_get_odds : string -> raised + response (list Game))
  (unbound_message : string -> string) (api_key league : string)
  (self : Fetch) (data : list Game) (q : Quote) (rest : list Quote) :
  requests_get_odds (odds_url api_key league)
  = inr (mkResponse 200 (inr data)) ->
  quotes data = q :: rest ->
  complete q = true ->
  exists new,
    fetch_odds requests_get_odds unbound_message api_key league self
    = (mkFetch (_cached_sports self) (odds_data self ++ new), [])
    /\ map heading new
       = map (fun q => heading (quote_record league q)) (quotes data)
    /\ hd_error new = Some (quote_record league q).
Proof.
  intros Hreply Hquotes Hq.
  rewrite (fetch_odds_200 _ _ _ _ _ data Hreply), Hquotes.
  cbn [try_each]. rewrite (quote_step_complete league q _ _ Hq). cbv beta iota.
  unfold complete in Hq.
  destruct (home_price q) as [h | ] eqn:Eh; [ | discriminate].
  destruct (away_price q) as [a | ] eqn:Ea; [ | discriminate].
  destruct (quotes_bound league rest (odds_data self ++ [quote_record league q])
              h a) as (new & vars' & Heq & Hnew).
  exists (quote_record league q :: new).
  rewrite <- app_assoc in Heq. cbn [app] in Heq.
  split; [ | split; [ | reflexivity]].
  - rewrite_try_each Heq. reflexivity.
  - cbn [map]. now rewrite Hnew.
Qed.

Lemma X8_second_bookmaker_home_only :
  exists new,
    fetch_odds (odds_reply [game_home_only]) unbound_311 "KEY" "nba"
      (mkFetch None [])
    = (mkFetch None ([] ++ new), [])
    /\ map heading new
       = map (fun q => heading (quote_record "nba" q)) (quotes [game_home_only])
    /\ hd_error new
       = Some (quote_record "nba"
                 (mkQuote "Lakers" "Celtics" "A"
                    [outcome "Lakers" 2.10; outcome "Celtics" 2.00])).
Proof.
  apply (X8_one_record_per_market_after_a_complete_first
           (odds_reply [game_home_only]) unbound_311 "KEY" "nba"
           (mkFetch None []) [game_home_only]
           (mkQuote "Lakers" "Celtics" "A"
              [outcome "Lakers" 2.10; outcome "Celtics" 2.00])
           [mkQuote "Lakers" "Celtics" "B" [mkOutcome (Some "Lakers"%string) None]]);
    vm_compute; reflexivity.
Defined.

(** X9.  The two prices are variables of the whole call, not of a
    market: the record of an h2h market that comes after a complete one
    has, for a team that the market does not quote, the price that the
    market before gave that team, be it of another bookmaker or of
    another game. *)
Theorem X9_unquoted_team_gets_the_previous_price
  (requests_get_odds : string -> raised + response (list Game))
  (unbound_message : string -> string) (api_key league : string)
  (self : Fetch) (data : list Game)
  (done : list Quote) (q1 q2 : Quote) (rest : list Quote) :
  requests_get_odds (odds_url api_key league)
  = inr (mkResponse 200 (inr data)) ->
  quotes data = done ++ q1 :: q2 :: rest ->
  forallb complete done = true ->
  complete q1 = true ->
  exists more,
    fetch_odds requests_get_odds unbound_message api_key league self
    = (mkFetch (_cached_sports self)
         (odds_data self
          ++ map (quote_record league) done
          ++ quote_record league q1
          :: mkOdds league (quote_home_team q2) (quote_away_team q2)
               (quote_bookmaker q2)
               (get (home_price q2) (home_odds (quote_record league q1)))
               (get (away_price q2) (away_odds (quote_record league q1)))
          :: more),
       []).
Proof.
  intros Hreply Hquotes Hdone Hq1.
  assert (Hprices : exists h a,
             home_price q1 = Some h /\ away_price q1 = Some a).
  { unfold complete in Hq1.
    destruct (home_price q1) as [h | ]; [ | discriminate].
    destruct (away_price q1) as [a | ]; [ | discriminate]. eauto. }
  destruct Hprices as (h & a & Eh & Ea).
  assert (Hh : home_odds (quote_record league q1) = h).
  { unfold quote_record. cbn [home_odds]. now rewrite Eh. }
  assert (Ha : away_odds (quote_record league q1) = a).
  { unfold quote_record. cbn [away_odds]. now rewrite Ea. }
  rewrite Hh, Ha.
  rewrite (fetch_odds_200 _ _ _ _ _ data Hreply), Hquotes, try_each_app.
  destruct (quotes_complete league done Hdone (odds_data self) (None, None))
    as [vars Hloop].
  rewrite_try_each Hloop. cbn [try_each].
  rewrite (quote_step_complete league q1 _ _ Hq1). cbv beta iota.
  rewrite Eh, Ea, quote_step_bound. cbv beta iota.
  match goal with
  | |- context [try_each rest _ (?odds, _)] =>
      destruct (quotes_bound league rest odds (get (home_price q2) h)
                  (get (away_price q2) a)) as (more & vars' & Hrest & _)
  end.
  exists more. rewrite_try_each Hrest.
  rewrite <- !app_assoc. reflexivity.
Qed.

Lemma X9_second_bookmaker_inherits_the_away_price :
  exists more,
    fetch_odds (odds_reply [game_home_only]) unbound_311 "KEY" "nba"
      (mkFetch None [])
    = (mkFetch None
         ([] ++ map (quote_record "nba") []
          ++ quote_record "nba"
               (mkQuote "Lakers" "Celtics" "A"
                  [outcome "Lakers" 2.10; outcome "Celtics" 2.00])
          :: mkOdds "nba" "Lakers" "Celtics" "B"
               (get (home_price
                       (mkQuote "Lakers" "Celtics" "B"
                          [mkOutcome (Some "Lakers"%string) None]))
                  (home_odds
                     (quote_record "nba"
                        (mkQuote "Lakers" "Celtics" "A"
                           [outcome "Lakers" 2.10; outcome "Celtics" 2.00]))))
               (get (away_price
                       (mkQuote "Lakers" "Celtics" "B"
                          [mkOutcome (Some "Lakers"%string) None]))
                  (away_odds
                     (quote_record "nba"
                        (mkQuote "Lakers" "Celtics" "A"
                           [outcome "Lakers" 2.10; outcome "Celtics" 2.00]))))
          :: more),
       []).
Proof.
  apply (X9_unquoted_team_gets_the_previous_price
           (odds_reply [game_home_only]) unbound_311 "KEY" "nba"
           (mkFetch None []) [game_home_only] []
           (mkQuote "Lakers" "Celtics" "A"
              [outcome "Lakers" 2.10; outcome "Celtics" 2.00])
           (mkQuote "Lakers" "Celtics" "B"
              [mkOutcome (Some "Lakers"%string) None])
           []);
    vm_compute; reflexivity.
Defined.

(** X10.  When the first h2h market of the payload does not quote both
    teams, the dict of the record reads a variable that was never
    assigned: [fetch_odds] appends nothing at all, whatever follows in
    the payload, and prints the one line of the [UnboundLocalError], on
    [home_odds] when the home team is not quoted and on [away_odds]
    otherwise. *)
Theorem X10_incomplete_first_market_drops_the_payload
  (requests_get_odds : string -> raised + response (list Game))
  (unbound_message : string -> string) (api_key league : string)
  (self : Fetch) (data : list Game) (q : Quote) (rest : list Quote) :
  requests_get_odds (odds_url api_key league)
  = inr (mkResponse 200 (inr data)) ->
  quotes data = q :: rest ->
  complete q = false ->
  fetch_odds requests_get_odds unbound_message api_key league self
  = (self,
     [request_error_odds league
        (OtherException
           (unbound_message
              match home_price q with
              | None => "home_odds"%string
              | Some _ => "away_odds"%string
              end))]).
Proof.
  intros Hreply Hquotes Hq.
  rewrite (fetch_odds_200 _ _ _ _ _ data Hreply), Hquotes.
  cbn [try_each]. rewrite quote_step_eq. cbn [fst snd or_else].
  unfold complete in Hq.
  destruct (home_price q) as [h | ]; cbn [or_else].
  - destruct (away_price q) as [a | ]; [discriminate | ].
    cbn [or_else]. now rewrite same_state.
  - now rewrite same_state.
Qed.

Lemma X10_away_team_only :
  fetch_odds (odds_reply [game_away_first]) unbound_311 "KEY" "nba"
    (mkFetch None [])
  = (mkFetch None [],
     [request_error_odds "nba"
        (OtherException
           (unbound_311
              match home_price
                      (mkQuote "Lakers" "Celtics" "A" [outcome "Celtics" 2.00])
              with
              | None => "home_odds"%string
              | Some _ => "away_odds"%string
              end))]).
Proof.
  apply (X10_incomplete_first_market_drops_the_payload
           (odds_reply [game_away_first]) unbound_311 "KEY" "nba"
           (mkFetch None []) [game_away_first]
           (mkQuote "Lakers" "Celtics" "A" [outcome "Celtics" 2.00])
           [mkQuote "Lakers" "Celtics" "B"
              [outcome "Lakers" 2.00; outcome "Celtics" 2.50]]);
    vm_compute; reflexivity.
Defined.

(** ** [fetch_sports] *)

Lemma sports_loop_keys (keys : list string) :
  forall sports : list string,
  try_each (map (fun key => mkSport (Some key)) keys) sports_step sports
  = (sports ++ keys, None).
Proof.
  induction keys as [ | key keys IH]; intros sports; cbn [map try_each].
  - now rewrite app_nil_r.
  - unfold sports_step at 1. cbn [sport_key]. rewrite IH.
    now rewrite <- app_assoc.
Qed.

(** X11.  The sports are fetched once: when no list is cached and the
    reply has status 200 and a key in every entry, [fetch_sports]
    returns the keys in the order of the reply and caches them; from
    then on every call returns the same list and prints nothing,
    whatever the network would answer and whatever the key. *)
Theorem X11_sports_are_fetched_once
  (requests_get_sports : string -> raised + response (list SportEntry))
  (api_key : string) (self : Fetch) (keys : list string) :
  _cached_sports self = None ->
  requests_get_sports (sports_url ++ "?api_key=" ++ api_key)%string
  = inr (mkResponse 200 (inr (map (fun key => mkSport (Some key)) keys))) ->
  fetch_sports requests_get_sports api_key self
  = (keys, mkFetch (Some keys) (odds_data self), [])
  /\ forall other_network other_key,
       fetch_sports other_network other_key
         (mkFetch (Some keys) (odds_data self))
       = (keys, mkFetch (Some keys) (odds_data self), []).
Proof.
  intros Hcache Hreply. split; [ | reflexivity].
  unfold fetch_sports. rewrite Hcache, Hreply. cbn [status_code json].
  change (200 =? 200)%Z with true. cbv iota.
  rewrite sports_loop_keys. reflexivity.
Qed.

Lemma X11_two_sports :
  fetch_sports (sports_reply [mkSport (Some "nba"%string);
                              mkSport (Some "nfl"%string)])
    "KEY" (mkFetch None [])
  = (["nba"; "nfl"]%string, mkFetch (Some ["nba"; "nfl"]%string) [], [])
  /\ forall other_network other_key,
       fetch_sports other_network other_key
         (mkFetch (Some ["nba"; "nfl"]%string) [])
       = (["nba"; "nfl"]%string, mkFetch (Some ["nba"; "nfl"]%string) [], []).
Proof.
  apply (X11_sports_are_fetched_once
           (sports_reply [mkSport (Some "nba"%string);
                          mkSport (Some "nfl"%string)])
           "KEY" (mkFetch None []) ["nba"; "nfl"]%string);
    reflexivity.
Defined.

(** X12.  Whatever the network answers, [fetch_sports] leaves
    [odds_data] alone and does one of two things: it returns the cached
    list, or a list that it has just cached, and prints nothing; or it
    changes nothing, so that the next call asks again, and prints one
    line. *)
Theorem X12_fetch_sports_caches_or_reports
  (requests_get_sports : string -> raised + response (list SportEntry))
  (api_key : string) (self : Fetch) :
  odds_data (snd (fst (fetch_sports requests_get_sports api_key self)))
  = odds_data self
  /\ ((_cached_sports (snd (fst (fetch_sports requests_get_sports api_key self)))
       = Some (fst (fst (fetch_sports requests_get_sports api_key self)))
       /\ snd (fetch_sports requests_get_sports api_key self) = [])
      \/ (snd (fst (fetch_sports requests_get_sports api_key self)) = self
          /\ _cached_sports self = None
          /\ List.length (snd (fetch_sports requests_get_sports api_key self))
             = 1)).
Proof.
  unfold fetch_sports.
  destruct (_cached_sports self) as [sports | ] eqn:Hcache.
  { cbn [fst snd]. split; [reflexivity | left; auto]. }
  destruct (requests_get_sports _) as [e | r].
  { cbn [fst snd]. split; [reflexivity | right; auto]. }
  destruct (status_code r =? 200)%Z.
  2:{ cbn [fst snd]. split; [reflexivity | right; auto]. }
  destruct (json r) as [e | entries].
  { cbn [fst snd]. split; [reflexivity | right; auto]. }
  destruct (try_each entries sports_step []) as [sports [msg | ]];
    cbn [fst snd odds_data _cached_sports].
  - split; [reflexivity | right; auto].
  - split; [reflexivity | left; auto].
Qed.

(** X13.  An entry of the reply without a key stops the loop: with no
    list cached and a reply of status 200, [fetch_sports] returns the
    keys of the entries before it, leaves the entries after it unread
    and the cache empty, and prints the line of the [KeyError]. *)
Theorem X13_entry_without_key_cuts_the_list
  (requests_get_sports : string -> raised + response (list SportEntry))
  (api_key : string) (self : Fetch) (keys : list string)
  (unread : list SportEntry) :
  _cached_sports self = None ->
  requests_get_sports (sports_url ++ "?api_key=" ++ api_key)%string
  = inr (mkResponse 200
           (inr (map (fun key => mkSport (Some key)) keys
                 ++ mkSport None :: unread))) ->
  fetch_sports requests_get_sports api_key self
  = (keys, self, ["Unexpected error fetching sports: 'key'."%string]).
Proof.
  intros Hcache Hreply.
  unfold fetch_sports. rewrite Hcache, Hreply. cbn [status_code json].
  change (200 =? 200)%Z with true. cbv iota.
  rewrite try_each_app, sports_loop_keys. reflexivity.
Qed.

Lemma X13_second_entry_without_key :
  fetch_sports
    (sports_reply (map (fun key => mkSport (Some key)) ["nba"%string]
                   ++ mkSport None :: [mkSport (Some "nfl"%string)]))
    "KEY" (mkFetch None [])
  = (["nba"%string], mkFetch None [],
     ["Unexpected error fetching sports: 'key'."%string]).
Proof.
  apply (X13_entry_without_key_cuts_the_list
           (sports_reply (map (fun key => mkSport (Some key)) ["nba"%string]
                          ++ mkSport None :: [mkSport (Some "nfl"%string)]))
           "KEY" (mkFetch None []) ["nba"%string]
           [mkSport (Some "nfl"%string)]);
    reflexivity.
Defined.

(** ** [run] and [main] with the fetchers of the class *)





(** X14.  When nothing is cached and the request for the sports fails
    (an exception, a status other than 200, a body that is no JSON),
    the run ends there: it prints its first line, the line of the
    failure and "No sports data available. Exiting.", and returns with
    the state as it was.  Nothing of this depends on what the network
    would answer a request for odds. *)
Theorem X14_no_sports_ends_the_run
  (requests_get_sports : string -> raised + response (list SportEntry))
  (api_key : string) (self : Fetch) :
  _cached_sports self = None ->
  failed (requests_get_sports (sports_url ++ "?api_key=" ++ api_key)%string)
  = true ->
  exists line,
    forall requests_get_odds unbound_message,
      bot_run requests_get_sports requests_get_odds unbound_message api_key self
      = (self,
         [Printed "Arbitrage bot is starting...";
          Printed line;
          Printed "No sports data available. Exiting."],
         Ok tt).
Proof.
  intros Hcache Hfailed. unfold bot_run, run, fetch_sports.
  rewrite Hcache. unfold failed in Hfailed.
  destruct (requests_get_sports _) as [e | r].
  { exists (request_error_sports e). reflexivity. }
  destruct (status_code r =? 200)%Z; cbn [negb orb] in Hfailed.
  2:{ exists (status_error_sports (status_code r)). reflexivity. }
  destruct (json r) as [e | entries]; [ | discriminate].
  exists (request_error_sports e). reflexivity.
Qed.

Lemma X14_network_down :
  exists line,
    forall requests_get_odds unbound_message,
      bot_run no_reply requests_get_odds unbound_message "KEY"
        (mkFetch None [])
      = (mkFetch None [],
         [Printed "Arbitrage bot is starting...";
          Printed line;
          Printed "No sports data available. Exiting."],
         Ok tt).
Proof.
  apply (X14_no_sports_ends_the_run no_reply "KEY" (mkFetch None []));
    reflexivity.
Defined.








Lemma away_price_same_names (q : Quote) :
  quote_home_team q = quote_away_team q -> away_price q = None.
Proof.
  intros Hsame. unfold away_price.
  rewrite filter_nil; [reflexivity | ].
  intros o _. unfold for_away. rewrite Hsame.
  destruct (get_is (outcome_name o) (quote_away_team q)); reflexivity.
Qed.

(** X18.  An outcome is read for the away team only when it does not
    have the name of the home team.  So a game whose two teams have one
    name, as when the payload names neither and both are "N/A", never
    gets an away price of its own: when its h2h market is the first of
    the payload, [fetch_odds] appends nothing and prints the line of the
    [UnboundLocalError]. *)
Theorem X18_teams_of_one_name_have_no_away_price
  (requests_get_odds : string -> raised + response (list Game))
  (unbound_message : string -> string) (api_key league : string)
  (self : Fetch) (data : list Game) (q : Quote) (rest : list Quote) :
  requests_get_odds (odds_url api_key league)
  = inr (mkResponse 200 (inr data)) ->
  quotes data = q :: rest ->
  quote_home_team q = quote_away_team q ->
  away_price q = None
  /\ exists variable,
       fetch_odds requests_get_odds unbound_message api_key league self
       = (self,
          [request_error_odds league
             (OtherException (unbound_message variable))]).
Proof.
  intros Hreply Hquotes Hsame.
  pose proof (away_price_same_names q Hsame) as Haway.
  split; [exact Haway | ].
  rewrite (fetch_odds_200 _ _ _ _ _ data Hreply), Hquotes.
  cbn [try_each]. rewrite quote_step_eq, Haway. cbn [fst snd or_else].
  destruct (home_price q) as [h | ]; cbn [or_else];
    [exists "away_odds"%string | exists "home_odds"%string];
    now rewrite same_state.
Qed.

Lemma X18_game_without_team_names :
  away_price
    (mkQuote "N/A" "N/A" "A" [outcome "Lakers" 2.10; outcome "Celtics" 2.00])
  = None
  /\ exists variable,
       fetch_odds
         (odds_reply
            [mkGame None None
               (Some [mkBookmaker (Some "A"%string)
                        (Some [h2h [outcome "Lakers" 2.10;
                                    outcome "Celtics" 2.00]])]);
             game_complete])
         unbound_311 "KEY" "nba" (mkFetch None [])
       = (mkFetch None [],
          [request_error_odds "nba" (OtherException (unbound_311 variable))]).
Proof.
  apply (X18_teams_of_one_name_have_no_away_price
           (odds_reply
              [mkGame None None
                 (Some [mkBookmaker (Some "A"%string)
                          (Some [h2h [outcome "Lakers" 2.10;
                                      outcome "Celtics" 2.00]])]);
               game_complete])
           unbound_311 "KEY" "nba" (mkFetch None [])
           [mkGame None None
              (Some [mkBookmaker (Some "A"%string)
                       (Some [h2h [outcome "Lakers" 2.10;
                                   outcome "Celtics" 2.00]])]);
            game_complete]
           (mkQuote "N/A" "N/A" "A"
              [outcome "Lakers" 2.10; outcome "Celtics" 2.00])
           (quotes [game_complete]));
    vm_compute; reflexivity.
Defined.
